(** * go-request-client: handler stack, retry middleware, promises and
      concurrent fan-out

    A shallow embedding of [middleware.go] (HandlerStack, RetryMiddleware,
    LoggingMiddleware), [async.go] (Promise, Then, Catch, SendConcurrent,
    SendConcurrentWithLimit) and [client.go] (Client.Request and the verb
    helpers), with the properties the design document states about them.

    Conventions.
    - A Go result pair (a Response pointer and an error) is a pair of options: [None] is [nil].
    - Go code that mutates shared objects is written in state-passing
      style over a store; a result of [None] in a store-passing function
      means that the call did not return (it ran out of fuel, blocked, or
      panicked, as said at each definition).
    - Goroutines are workers of a transition system; a schedule is the
      list of workers the Go scheduler picks, one atomic step each. *)

From stdpp Require Import base tactics option list strings gmap.
From Stdlib Require Import ZArith Lia Ascii.

Open Scope Z_scope.
Open Scope nat_scope.

(* ===================================================================== *)
(** ** middleware.go *)
(* ===================================================================== *)

Module Middleware.

Section handler_stack.
Context {Req Resp Err W : Type}.

(** What a handler returns: a Response pointer and an error. *)
Definition Result : Type := option Resp * option Err.

(** The mutable memory a handler runs against: the [position] field of
    the HandlerStack object the handlers close over, and everything
    else ([world]: loggers, counters, the network).  [position] is a Go
    [int] that only ever holds values between 0 and [len(stack)]. *)
Record Store := mkStore { position : nat; world : W }.

Definition set_position (p : nat) (st : Store) : Store :=
  {| position := p; world := world st |}.
Definition set_world (w : W) (st : Store) : Store :=
  {| position := position st; world := w |}.

(** [type Handler]: from a request to a result, with effects. *)
Definition Handler : Type := Req → Store → option (Result * Store).

(** [type Middleware func(next Handler) Handler] *)
Definition Middleware : Type := Handler → Handler.

(** The fields of HandlerStack that are fixed while a request runs. *)
Record HandlerStack := mkHandlerStack {
  handler : Handler;
  stack : list Middleware
}.

(** [NewHandlerStack]: a new stack object, empty, position 0. *)
Definition NewHandlerStack (h : Handler) (st : Store) : HandlerStack * Store :=
  ({| handler := h; stack := [] |}, set_position 0 st).

(** [hs.stack = append(hs.stack, middleware)] *)
Definition Push (middleware : Middleware) (hs : HandlerStack) : HandlerStack :=
  {| handler := handler hs; stack := stack hs ++ [middleware] |}.

(** [Next].  The method value [hs.Next] handed to the middleware is the
    recursive call; a middleware may call it any number of times, so the
    recursion is bounded by fuel and [None] is "did not return". *)
Fixpoint Next (fuel : nat) (hs : HandlerStack) : Handler :=
  fun req st =>
    if decide (length (stack hs) ≤ position st) then handler hs req st
    else
      match stack hs !! position st with
      | None => None
      | Some middleware =>
          match fuel with
          | O => None
          | S fuel' =>
              middleware (Next fuel' hs) req (set_position (S (position st)) st)
          end
      end.

(** [Reset]: [hs.position = 0] *)
Definition Reset (st : Store) : Store := set_position 0 st.

(** *** Middlewares that act before and after one call of [next] *)

(** A handler that only touches the world (the transport executor). *)
Definition WHandler : Type := Req → W → Result * W.

Definition lift (h : WHandler) : Handler :=
  fun req st => let '(r, w) := h req (world st) in Some (r, set_world w st).

(** A middleware that acts on the request, calls [next] once, and acts
    on what it returned. *)
Record Around := mkAround {
  before : Req → W → Req * W;
  after : Result → W → Result * W
}.

Definition around (a : Around) : Middleware :=
  fun next req st =>
    let '(req', w1) := before a req (world st) in
    match next req' (set_world w1 st) with
    | None => None
    | Some (r, st2) =>
        let '(r', w3) := after a r (world st2) in
        Some (r', set_world w3 st2)
    end.

(** The same wrapper over world-only handlers, and the closure chain
    [a1 (a2 (... (an terminal)))] built from a list. *)
Definition around_w (a : Around) (next : WHandler) : WHandler :=
  fun req w =>
    let '(req', w1) := before a req w in
    let '(r, w2) := next req' w1 in
    after a r w2.

Definition onion (ms : list Around) (terminal : WHandler) : WHandler :=
  foldr around_w terminal ms.

(** [LoggingMiddleware(logger)]; [logf] is [logger.Logf] applied to the
    three format strings of the source.  The third line reads
    [resp.StatusCode]: it is made from a response that is there. *)
Inductive LogLine :=
| LogRequest (req : Req)
| LogError (e : Err)
| LogResponse (resp : Resp).

(** When [next] returns a nil response and a nil error, reading
    [resp.StatusCode] dereferences the nil pointer: the handler panics
    ([None]). *)
Definition LoggingMiddleware (logf : LogLine → W → W) : Middleware :=
  fun next req st =>
    let st1 := set_world (logf (LogRequest req) (world st)) st in
    match next req st1 with
    | None => None
    | Some ((_, Some e), st2) =>
        Some ((None, Some e), set_world (logf (LogError e) (world st2)) st2)
    | Some ((Some resp, None), st2) =>
        Some ((Some resp, None), set_world (logf (LogResponse resp) (world st2)) st2)
    | Some ((None, None), _) => None
    end.

(** *** Facts *)

Lemma position_set_position p st : position (set_position p st) = p.
Proof. reflexivity. Qed.

Lemma world_set_position p st : world (set_position p st) = world st.
Proof. reflexivity. Qed.

Lemma Push_stack m hs : stack (Push m hs) = stack hs ++ [m].
Proof. reflexivity. Qed.

(** Past the end of the stack [Next] is the terminal handler, and the
    cursor stays where it is. *)
Lemma Next_exhausted fuel hs req st :
  length (stack hs) ≤ position st →
  Next fuel hs req st = handler hs req st.
Proof.
  intros Hle. destruct fuel; simpl; case_decide; done || lia.
Qed.

Lemma Next_S fuel hs req st middleware :
  stack hs !! position st = Some middleware →
  Next (S fuel) hs req st
  = middleware (Next fuel hs) req (set_position (S (position st)) st).
Proof.
  intros Hm. simpl. rewrite Hm.
  apply lookup_lt_Some in Hm.
  case_decide as Hle; [|reflexivity].
  destruct (Nat.lt_irrefl _ (Nat.lt_le_trans _ _ _ Hm Hle)).
Qed.

(** From cursor [p] a stack of before/after middlewares runs the closure
    chain of the middlewares from [p] on, and leaves the cursor at the
    end of the stack. *)
Lemma Next_around_from ms terminal :
  ∀ n fuel req st,
    length ms - position st = n →
    position st ≤ length ms →
    n ≤ fuel →
    Next fuel {| handler := lift terminal; stack := around <$> ms |} req st
    = let '(r, w) := onion (drop (position st) ms) terminal req (world st) in
      Some (r, {| position := length ms; world := w |}).
Proof.
  induction n as [|n IH]; intros fuel req [p w] Hn Hp Hfuel;
    cbn [position world] in *.
  - assert (p = length ms) as -> by lia.
    rewrite Next_exhausted by (cbn; rewrite length_fmap; lia).
    rewrite drop_all. unfold lift. cbn.
    destruct (terminal req w) as [r w']. reflexivity.
  - destruct fuel as [|fuel]; [lia|].
    assert (Hlt : p < length ms) by lia.
    destruct (lookup_lt_is_Some_2 ms p Hlt) as [a Ha].
    rewrite (drop_S _ _ _ Ha).
    rewrite (Next_S _ _ _ _ (around a))
      by (cbn; rewrite list_lookup_fmap, Ha; reflexivity).
    cbn [onion foldr]. fold (onion (drop (S p) ms) terminal).
    unfold around at 1, around_w at 1.
    cbn [position world set_position set_world].
    destruct (before a req w) as [req' w1].
    change (set_world w1 (set_position (S p) {| position := p; world := w |}))
      with {| position := S p; world := w1 |}.
    rewrite (IH fuel req' {| position := S p; world := w1 |})
      by (cbn; lia).
    cbn [position world].
    destruct (onion (drop (S p) ms) terminal req' w1) as [r w2].
    cbn [position world set_world].
    destruct (after a r w2) as [r' w3]. reflexivity.
Qed.

End handler_stack.

Arguments Store : clear implicits.
Arguments Result : clear implicits.
Arguments Handler : clear implicits.
Arguments Middleware : clear implicits.
Arguments HandlerStack : clear implicits.
Arguments WHandler : clear implicits.
Arguments Around : clear implicits.
Arguments LogLine : clear implicits.

(** *** Instrumented middlewares: who was called, in which order *)

Section tracing.
Context {Req Resp Err : Type}.

Inductive Event :=
| Before (name : string)
| Called
| After (name : string).

(** A middleware that records that it saw the request, delegates, and
    records that it saw the response. *)
Definition tracing (name : string) : Around Req Resp Err (list Event) :=
  {| before := fun req w => (req, w ++ [Before name]);
     after := fun r w => (r, w ++ [After name]) |}.

(** A terminal handler that records that it ran and answers [T req]. *)
Definition terminal (T : Req → Result Resp Err)
  : WHandler Req Resp Err (list Event) :=
  fun req w => (T req, w ++ [Called]).

Definition onion_trace (names : list string) : list Event :=
  (Before <$> names) ++ [Called] ++ (After <$> reverse names).

Lemma onion_tracing T names :
  ∀ req w,
    onion (tracing <$> names) (terminal T) req w
    = (T req, w ++ onion_trace names).
Proof.
  unfold onion_trace.
  induction names as [|name names IH]; intros req w; [reflexivity|].
  cbn [fmap list_fmap onion foldr].
  fold (onion (tracing <$> names) (terminal T)).
  unfold around_w; cbn [before after tracing].
  rewrite IH. f_equal.
  rewrite reverse_cons, fmap_app. cbn [fmap list_fmap].
  rewrite <- !(assoc_L (++)). reflexivity.
Qed.

End tracing.

(** *** RetryMiddleware *)

Definition max_int : Z := (2 ^ 63 - 1)%Z.
Definition min_int : Z := (- 2 ^ 63)%Z.

(** Two's complement wrap-around of a 64-bit [int]. *)
Definition wrap_int (z : Z) : Z := ((z + 2 ^ 63) `mod` 2 ^ 64 - 2 ^ 63)%Z.

(** [attempt++] *)
Definition int_succ (n : Z) : Z := wrap_int (n + 1).

Lemma int_succ_small n : (min_int ≤ n < max_int)%Z → int_succ n = (n + 1)%Z.
Proof.
  unfold int_succ, wrap_int, min_int, max_int. intros Hn.
  rewrite Z.mod_small by lia. lia.
Qed.

Section retry.
Context {Req Resp Err W : Type}.

(** The [select] of the retry loop: wait for [req.Context().Done()] or
    for [time.After(delay)], whichever comes first.  [Some e] says that
    the context was done first and [e] is [req.Context().Err()];
    [None] says that the timer fired first. *)
Variable await : Req → Z → W → option Err * W.

Variable maxRetries : Z.
(** [backoff.Delay] *)
Variable backoff : Z → Z.
Variable next : Handler Req Resp Err W.
Variable req : Req.

(** The [for] loop of the handler RetryMiddleware returns, entered with
    the loop variable at [attempt].  One unit of fuel per evaluation of
    the loop condition. *)
Fixpoint retry_loop (fuel : nat) (attempt : Z) (lastErr : option Err)
    (st : Store W) : option (Result Resp Err * Store W) :=
  match fuel with
  | O => None
  | S fuel' =>
      if decide (attempt ≤ maxRetries)%Z then
        match next req st with
        | None => None
        | Some ((resp, None), st1) => Some ((resp, None), st1)
        | Some ((resp, Some e), st1) =>
            if decide (attempt < maxRetries)%Z then
              match await req (backoff attempt) (world st1) with
              | (Some ctxErr, w2) => Some ((None, Some ctxErr), set_world w2 st1)
              | (None, w2) =>
                  retry_loop fuel' (int_succ attempt) (Some e) (set_world w2 st1)
              end
            else retry_loop fuel' (int_succ attempt) (Some e) st1
        end
      else Some ((None, lastErr), st)
  end.

End retry.

(** [RetryMiddleware(maxRetries, backoff)] *)
Definition RetryMiddleware {Req Resp Err W} (await : Req → Z → W → option Err * W)
    (fuel : nat) (maxRetries : Z) (backoff : Z → Z) : Middleware Req Resp Err W :=
  fun next req st => retry_loop await maxRetries backoff next req fuel 0%Z None st.

(** Probes: a handler and a [select] that append what happened to a log
    kept beside the world, out of reach of the code under observation. *)
Inductive RetryEvent {Resp Err : Type} :=
| Attempt (r : Result Resp Err)
| Waited (delay : Z) (cancelled : option Err).
Arguments RetryEvent : clear implicits.

Section probes.
Context {Req Resp Err W : Type}.
Local Abbreviation Log := (list (RetryEvent Resp Err)).

Definition hide (st : Store (Log * W)) : Store W :=
  {| position := position st; world := snd (world st) |}.

Definition observe_next (next : Handler Req Resp Err W)
  : Handler Req Resp Err (Log * W) :=
  fun req st =>
    match next req (hide st) with
    | None => None
    | Some (r, st') =>
        Some (r, {| position := position st';
                    world := (fst (world st) ++ [Attempt r], world st') |})
    end.

Definition observe_await (await : Req → Z → W → option Err * W)
  : Req → Z → Log * W → option Err * (Log * W) :=
  fun req delay lw =>
    let '(c, w') := await req delay (snd lw) in
    (c, (fst lw ++ [Waited delay c], w')).

Definition log (st : Store (Log * W)) : Log := fst (world st).

(** The results of the attempts in a log, in order. *)
Definition attempts (evs : Log) : list (Result Resp Err) :=
  omap (fun ev => match ev with Attempt r => Some r | Waited _ _ => None end) evs.

Definition waits (evs : Log) : list (Z * option Err) :=
  omap (fun ev => match ev with Waited d c => Some (d, c) | Attempt _ => None end) evs.

End probes.

(** *** The handler stack: order of calls, and the cursor *)

Section stack_properties.
Context {Req Resp Err : Type}.

(** C3.  Middlewares A and B pushed in that order on a new stack with
    terminal handler T: one execution through [Next] calls, in this order,
    A (before), B (before), T, B (after), A (after), and answers what T
    answered.  Any fuel of at least two (the depth of the stack) will do. *)
Theorem Next_onion_order_A_B (A B : string) (T : Req → Result Resp Err)
    (req : Req) (st : Store (list Event)) (k : nat) :
  let '(hs0, st0) := NewHandlerStack (lift (terminal T)) st in
  let hs := Push (around (tracing B)) (Push (around (tracing A)) hs0) in
  Next (2 + k) hs req st0
  = Some (T req,
          {| position := 2;
             world := world st ++ [Before A; Before B; Called; After B; After A] |}).
Proof.
  unfold NewHandlerStack, Push. cbn [handler stack app].
  change [around (tracing A); around (tracing B)]
    with (around <$> [tracing (Req:=Req) (Resp:=Resp) (Err:=Err) A; tracing B]).
  rewrite (Next_around_from _ _ 2) by (cbn; lia).
  cbn [position set_position drop world].
  change [tracing A; tracing B]
    with (tracing (Req:=Req) (Resp:=Resp) (Err:=Err) <$> [A; B]).
  rewrite onion_tracing. reflexivity.
Qed.

(** The same for any number of middlewares: the first pushed is the
    outermost. *)
Lemma Next_onion_order (names : list string) (T : Req → Result Resp Err)
    (req : Req) (st : Store (list Event)) (k : nat) :
  Next (length names + k)
    {| handler := lift (terminal T); stack := around <$> (tracing <$> names) |}
    req (Reset st)
  = Some (T req, {| position := length names; world := world st ++ onion_trace names |}).
Proof.
  rewrite (Next_around_from _ _ (length names))
    by (cbn; rewrite ?length_fmap; lia).
  cbn [position Reset set_position world]. rewrite drop_0.
  rewrite onion_tracing, length_fmap. reflexivity.
Qed.

(** C1, as the code has it.  The cursor is moved back to zero by [Reset]
    and by nothing else.  An execution through [Next] that starts right
    after [Reset] applies the whole list of (before/after) middlewares as
    the closure chain does and leaves the cursor at the end of the stack;
    an execution that finds the cursor at or past the end of the stack,
    as an earlier execution left it, runs the terminal handler alone. *)
Theorem Next_full_list_after_Reset {W : Type} (ms : list (Around Req Resp Err W))
    (t : WHandler Req Resp Err W) (req : Req) (st : Store W) (k j : nat) :
  let hs := {| handler := lift t; stack := around <$> ms |} in
  Next (length ms + k) hs req (Reset st)
  = (let '(r, w) := onion ms t req (world st) in
     Some (r, {| position := length ms; world := w |}))
  ∧ Next k hs req (set_position (length ms + j) st) = lift t req (set_position (length ms + j) st).
Proof.
  cbn zeta. split.
  - rewrite (Next_around_from _ _ (length ms)) by (cbn; lia).
    reflexivity.
  - apply Next_exhausted. cbn. rewrite length_fmap. lia.
Qed.

(** C1, as stated, fails: on a stack with the single middleware A, the
    first execution calls A around T and leaves the cursor at 1; a second
    execution on the same stack calls T alone. *)
Lemma Next_second_execution_skips_middlewares :
  let T : unit → Result unit unit := fun _ => (Some tt, None) in
  let '(hs0, st0) := NewHandlerStack (lift (terminal T)) {| position := 0; world := [] |} in
  let hs := Push (around (tracing "A")) hs0 in
  ∃ st1 st2,
    Next 1 hs tt st0 = Some (T tt, st1)
    ∧ world st1 = [Before "A"; Called; After "A"]
    ∧ position st1 = 1
    ∧ Next 1 hs tt st1 = Some (T tt, st2)
    ∧ world st2 = world st1 ++ [Called]
    ∧ world st2 ≠ world st1 ++ [Before "A"; Called; After "A"].
Proof.
  cbn. do 2 eexists. repeat split; try reflexivity. discriminate.
Qed.

End stack_properties.

(** *** Retrying *)

Section retry_properties.
Context {Req Resp Err W : Type}.
Variable await : Req → Z → W → option Err * W.
Variable backoff : Z → Z.
Variable next : Handler Req Resp Err W.
Variable req : Req.

Local Abbreviation loop N :=
  (retry_loop (observe_await await) N backoff (observe_next next) req).

Lemma observe_next_Some st r st1 :
  next req (hide st) = Some (r, st1) →
  observe_next next req st
  = Some (r, {| position := position st1; world := (log st ++ [Attempt r], world st1) |}).
Proof. intros H. unfold observe_next. rewrite H. reflexivity. Qed.

Lemma observe_await_eq d (st : Store (list (RetryEvent Resp Err) * W)) c w' :
  await req d (snd (world st)) = (c, w') →
  observe_await await req d (world st) = (c, (log st ++ [Waited d c], w')).
Proof. intros H. unfold observe_await. rewrite H. reflexivity. Qed.

(** The probes do not change what is observed: without its log, an
    execution under observation is the execution of the loop on the bare
    handler and the bare [select]. *)
Lemma retry_loop_observed (N : Z) :
  ∀ fuel a lastErr st,
    retry_loop await N backoff next req fuel a lastErr (hide st)
    = (fun rs => (fst rs, hide (snd rs))) <$> loop N fuel a lastErr st.
Proof.
  induction fuel as [|fuel IH]; intros a lastErr st; cbn [retry_loop]; [done|].
  case_decide; [|done].
  unfold observe_next.
  destruct (next req (hide st)) as [[[resp [e|]] [p1 w1]]|]; [| |done].
  - case_decide.
    + unfold observe_await. cbn.
      destruct (await req (backoff a) w1) as [[ctxErr|] w2]; [done|].
      by rewrite <- IH.
    + by rewrite <- IH.
  - done.
Qed.

(** An inner handler that fails whenever it is called, under a context
    that is never done: from loop counter [a] the loop makes the
    [N - a + 1] attempts that are left, with a wait between two attempts,
    and returns the error of the last one. *)
Lemma retry_loop_always_failing (N : Z) :
  (N < max_int)%Z →
  (∀ st, ∃ resp e st', next req st = Some ((resp, Some e), st')) →
  (∀ d w, fst (await req d w) = None) →
  ∀ n a lastErr st fuel,
    (0 ≤ a ≤ N)%Z → Z.to_nat (N - a) = n → n + 2 ≤ fuel →
    ∃ resp e st' evs,
      loop N fuel a lastErr st = Some ((None, Some e), st')
      ∧ log st' = log st ++ evs
      ∧ length (attempts evs) = n + 1
      ∧ length (waits evs) = n
      ∧ last evs = Some (Attempt (resp, Some e)).
Proof.
  intros HN Hfail Hctx.
  induction n as [|n IH]; intros a lastErr st fuel Ha Hn Hfuel.
  - assert (a = N) as -> by lia.
    destruct fuel as [|[|fuel]]; [lia..|].
    destruct (Hfail (hide st)) as (resp & e & st1 & Hnext).
    exists resp, e, (mkStore (position st1) (log st ++ [Attempt (resp, Some e)], world st1)),
      [Attempt (resp, Some e)].
    cbn [retry_loop]. rewrite decide_True by lia.
    rewrite (observe_next_Some _ _ _ Hnext).
    rewrite decide_False by lia.
    rewrite int_succ_small by (unfold min_int, max_int in *; lia).
    rewrite decide_False by lia.
    repeat split; reflexivity.
  - destruct fuel as [|fuel]; [lia|].
    destruct (Hfail (hide st)) as (resp & e & st1 & Hnext).
    cbn [retry_loop]. rewrite decide_True by lia.
    rewrite (observe_next_Some _ _ _ Hnext).
    rewrite decide_True by lia.
    set (st1' := mkStore (position st1) (log st ++ [Attempt (resp, Some e)], world st1)).
    destruct (await req (backoff a) (world st1)) as [c w2] eqn:Haw.
    assert (c = None) as -> by (specialize (Hctx (backoff a) (world st1)); rewrite Haw in Hctx; exact Hctx).
    rewrite (observe_await_eq (backoff a) st1' None w2) by exact Haw.
    rewrite int_succ_small by (unfold min_int, max_int in *; lia).
    destruct (IH (a + 1)%Z (Some e)
                (set_world (log st1' ++ [Waited (backoff a) None], w2) st1') fuel)
      as (resp' & e' & st' & evs & Hloop & Hlog & Hatt & Hwait & Hlast); [lia..|].
    exists resp', e', st', ([Attempt (resp, Some e); Waited (backoff a) None] ++ evs).
    split; [exact Hloop|].
    split; [rewrite Hlog; cbn; rewrite <- !(assoc_L (++)); reflexivity|].
    unfold attempts, waits in *.
    rewrite !omap_app, !length_app, Hatt, Hwait. cbn.
    split; [lia|]. split; [lia|].
    destruct evs as [|ev evs]; [discriminate Hlast|].
    cbn in *. exact Hlast.
Qed.

Lemma last_attempts (evs : list (RetryEvent Resp Err)) r :
  last evs = Some (Attempt r) → last (attempts evs) = Some r.
Proof.
  intros (evs' & ->)%last_Some.
  unfold attempts. rewrite omap_app. cbn. apply last_snoc.
Qed.

(** C4.  With [maxRetries = N >= 0] (and [N + 1] still an [int]), an inner
    handler that fails on every call and a context that is never done,
    the retrying handler calls the inner handler exactly [N + 1] times,
    waits [N] times in between, and returns a nil response with the error
    of the last attempt. *)
Theorem RetryMiddleware_attempts (N : Z) (st : Store (list (RetryEvent Resp Err) * W))
    (k : nat) :
  (0 ≤ N < max_int)%Z →
  (∀ st0, ∃ resp e st', next req st0 = Some ((resp, Some e), st')) →
  (∀ d w, fst (await req d w) = None) →
  ∃ resp e st' evs,
    RetryMiddleware (observe_await await) (Z.to_nat N + 2 + k) N backoff
      (observe_next next) req st
    = Some ((None, Some e), st')
    ∧ log st' = log st ++ evs
    ∧ length (attempts evs) = Z.to_nat N + 1
    ∧ length (waits evs) = Z.to_nat N
    ∧ last (attempts evs) = Some (resp, Some e)
    ∧ last evs = Some (Attempt (resp, Some e)).
Proof.
  intros HN Hfail Hctx. unfold RetryMiddleware.
  destruct (retry_loop_always_failing N (proj2 HN) Hfail Hctx
              (Z.to_nat N) 0%Z None st (Z.to_nat N + 2 + k))
    as (resp & e & st' & evs & Hloop & Hlog & Hatt & Hwait & Hlast);
    [lia | f_equal; lia | lia |].
  exists resp, e, st', evs.
  repeat split; try assumption. by apply last_attempts.
Qed.

Lemma observe_next_inv st r st1' :
  observe_next next req st = Some (r, st1') →
  ∃ st1, next req (hide st) = Some (r, st1)
         ∧ st1' = {| position := position st1;
                     world := (log st ++ [Attempt r], world st1) |}.
Proof.
  unfold observe_next. intros Hobs.
  destruct (next req (hide st)) as [[r0 st1]|]; [|done].
  simplify_eq. by exists st1.
Qed.

(** A wait that ends because the context is done ends the execution. *)
Definition cancel_is_final (evs : list (RetryEvent Resp Err)) (res : Result Resp Err) : Prop :=
  ∀ pre d ctxErr post,
    evs = pre ++ Waited d (Some ctxErr) :: post →
    post = [] ∧ res = (None, Some ctxErr).

(** Whatever [maxRetries] and the inner handler are: if the loop returns
    and one of its waits ended because the context was done, that wait is
    the last thing that happened and the context's error is what the loop
    returns. *)
Lemma retry_loop_cancelled (N : Z) :
  ∀ fuel a lastErr st res st',
    loop N fuel a lastErr st = Some (res, st') →
    ∃ evs, log st' = log st ++ evs ∧ cancel_is_final evs res.
Proof.
  unfold cancel_is_final.
  induction fuel as [|fuel IH]; intros a lastErr st res st' Hloop;
    cbn [retry_loop] in Hloop; [done|].
  case_decide as Hle.
  2:{ simplify_eq. exists []. rewrite app_nil_r. split; [done|].
      intros pre ????. by destruct pre. }
  destruct (observe_next next req st) as [[[resp err] st1']|] eqn:Hobs; [|done].
  apply observe_next_inv in Hobs as (st1 & Hnext & ->).
  destruct err as [e|].
  2:{ simplify_eq. exists [Attempt (resp, None)]. split; [done|].
      intros pre ????. destruct pre as [|? [|? ?]]; discriminate. }
  set (st1' := mkStore (position st1) (log st ++ [Attempt (resp, Some e)], world st1)) in *.
  case_decide as Hlt.
  - destruct (await req (backoff a) (world st1)) as [c w2] eqn:Haw.
    rewrite (observe_await_eq (backoff a) st1' c w2) in Hloop by exact Haw.
    destruct c as [ctxErr|].
    + simplify_eq.
      exists [Attempt (resp, Some e); Waited (backoff a) (Some ctxErr)].
      split; [cbn; rewrite <- !(assoc_L (++)); reflexivity|].
      intros pre d ctxErr' post Hevs.
      destruct pre as [|? [|? [|? ?]]]; simplify_eq/=; done.
    + apply IH in Hloop as (evs & Hlog & Hevs).
      exists ([Attempt (resp, Some e); Waited (backoff a) None] ++ evs).
      split; [rewrite Hlog; cbn; rewrite <- !(assoc_L (++)); reflexivity|].
      intros pre d ctxErr post Heq.
      destruct pre as [|? [|? pre]]; simplify_eq/=.
      by eapply Hevs.
  - apply IH in Hloop as (evs & Hlog & Hevs).
    exists ([Attempt (resp, Some e)] ++ evs).
    split; [rewrite Hlog; cbn; rewrite <- !(assoc_L (++)); reflexivity|].
    intros pre d ctxErr post Heq.
    destruct pre as [|? pre]; simplify_eq/=.
    by eapply Hevs.
Qed.

(** With an inner handler that always answers and [maxRetries + 1] still
    an [int], the loop returns within the loop tests that are left. *)
Lemma retry_loop_returns (N : Z) :
  (N < max_int)%Z →
  (∀ st0, is_Some (next req st0)) →
  ∀ n a lastErr st fuel,
    (min_int ≤ a)%Z → Z.to_nat (N + 1 - a) = n → n < fuel →
    is_Some (loop N fuel a lastErr st).
Proof.
  intros HN Htotal.
  induction n as [|n IH]; intros a lastErr st fuel Ha Hn Hfuel;
    (destruct fuel as [|fuel]; [lia|]); cbn [retry_loop].
  - rewrite decide_False by lia. by eexists.
  - rewrite decide_True by lia.
    destruct (Htotal (hide st)) as [[[resp err] st1] Hnext].
    rewrite (observe_next_Some _ _ _ Hnext).
    destruct err as [e|]; [|by eexists].
    rewrite int_succ_small by (unfold min_int, max_int in *; lia).
    case_decide as Hlt; [|apply IH; lia].
    destruct (observe_await await req (backoff a) _) as [[ctxErr|] w2];
      [by eexists|apply IH; lia].
Qed.

End retry_properties.

(** Concrete runs: the inner handler always fails with ["boom"]. *)
Definition failing : Handler unit unit string unit :=
  fun _ st => Some ((None, Some "boom"%string), st).

Definition never_done : unit → Z → unit → option string * unit :=
  fun _ _ w => (None, w).

Definition done_at_once : unit → Z → unit → option string * unit :=
  fun _ _ w => (Some "context canceled"%string, w).

Definition linear_backoff : Z → Z := fun attempt => (100 * (attempt + 1))%Z.

Definition empty_store : Store (list (RetryEvent unit string) * unit) :=
  {| position := 0; world := ([], tt) |}.

Example RetryMiddleware_3_retries :
  RetryMiddleware (observe_await never_done) 5 3 linear_backoff
    (observe_next failing) tt empty_store
  = Some ((None, Some "boom"%string),
          {| position := 0;
             world := ([Attempt (None, Some "boom"%string); Waited 100 None;
                        Attempt (None, Some "boom"%string); Waited 200 None;
                        Attempt (None, Some "boom"%string); Waited 300 None;
                        Attempt (None, Some "boom"%string)], tt) |}).
Proof. vm_compute. reflexivity. Qed.

Example RetryMiddleware_cancelled_first_wait :
  RetryMiddleware (observe_await done_at_once) 5 3 linear_backoff
    (observe_next failing) tt empty_store
  = Some ((None, Some "context canceled"%string),
          {| position := 0;
             world := ([Attempt (None, Some "boom"%string);
                        Waited 100 (Some "context canceled"%string)], tt) |}).
Proof. vm_compute. reflexivity. Qed.

(** The cursor is shared by all calls of [hs.Next]: when the retrying
    middleware is pushed before a middleware B, its second attempt finds
    the cursor at the end of the stack and reaches the terminal handler
    without passing through B. *)
Example Next_retry_then_tracing :
  let failing_terminal : WHandler unit unit string (list Event) :=
    fun _ w => ((None, Some "boom"%string), w ++ [Called]) in
  let hs := Push (around (tracing "B"))
              (Push (RetryMiddleware (fun _ _ w => (None, w)) 3 1 linear_backoff)
                 (fst (NewHandlerStack (lift failing_terminal)
                         {| position := 0; world := [] |}))) in
  Next 2 hs tt {| position := 0; world := [] |}
  = Some ((None, Some "boom"%string),
          {| position := 2; world := [Before "B"; Called; After "B"; Called] |}).
Proof. vm_compute. reflexivity. Qed.

Lemma RetryMiddleware_attempts_witness :
  ∃ resp e st' evs,
    RetryMiddleware (observe_await never_done) (Z.to_nat 3 + 2 + 0) 3 linear_backoff
      (observe_next failing) tt empty_store
    = Some ((None, Some e), st')
    ∧ log st' = log empty_store ++ evs
    ∧ length (attempts evs) = Z.to_nat 3 + 1
    ∧ length (waits evs) = Z.to_nat 3
    ∧ last (attempts evs) = Some (resp, Some e)
    ∧ last evs = Some (Attempt (resp, Some e)).
Proof.
  apply (RetryMiddleware_attempts never_done linear_backoff failing tt 3 empty_store 0).
  - unfold max_int. lia.
  - intros st0. exists None, "boom"%string, st0. reflexivity.
  - intros d w. reflexivity.
Defined.

(** *** ExponentialBackoff *)

(** [type ExponentialBackoff struct]; a [time.Duration] is an [int64] of
    nanoseconds. *)
Record ExponentialBackoff := mkExponentialBackoff {
  BaseDelay : Z;
  MaxDelay : Z
}.

(** [Delay].  In [time.Duration(1<<attempt)] the constant 1 has type
    [time.Duration], so the shift and the product are 64-bit: bits shifted
    out are lost, the product wraps around.  A negative shift count
    panics ([None]). *)
Definition Delay (eb : ExponentialBackoff) (attempt : Z) : option Z :=
  if decide (attempt < 0)%Z then None
  else
    let delay := wrap_int (BaseDelay eb * wrap_int (Z.shiftl 1 attempt)) in
    Some (if decide (delay > MaxDelay eb)%Z then MaxDelay eb else delay).

Lemma wrap_int_small z : (min_int ≤ z ≤ max_int)%Z → wrap_int z = z.
Proof.
  unfold wrap_int, min_int, max_int. intros Hz.
  rewrite Z.mod_small by lia. lia.
Qed.

Lemma wrap_int_mul_r x y : wrap_int (x * wrap_int y) = wrap_int (x * y).
Proof.
  unfold wrap_int. f_equal.
  pose proof (Z.div_mod (y + 2 ^ 63) (2 ^ 64) ltac:(lia)) as Hy.
  replace (x * ((y + 2 ^ 63) `mod` 2 ^ 64 - 2 ^ 63) + 2 ^ 63)%Z
    with (x * y + 2 ^ 63 + (- x * ((y + 2 ^ 63) `div` 2 ^ 64)) * 2 ^ 64)%Z by lia.
  apply Z_mod_plus_full.
Qed.

Lemma wrap_int_shift_out attempt : (64 ≤ attempt)%Z → wrap_int (Z.shiftl 1 attempt) = 0%Z.
Proof.
  intros Ha. unfold wrap_int.
  rewrite Z.shiftl_1_l.
  replace attempt with (64 + (attempt - 64))%Z by lia.
  rewrite Z.pow_add_r by lia.
  replace (2 ^ 64 * 2 ^ (attempt - 64) + 2 ^ 63)%Z
    with (2 ^ 63 + 2 ^ (attempt - 64) * 2 ^ 64)%Z by lia.
  rewrite Z_mod_plus_full. reflexivity.
Qed.

(** The delay never exceeds the cap, whatever overflows on the way. *)
Theorem Delay_at_most_MaxDelay (eb : ExponentialBackoff) (attempt delay : Z) :
  Delay eb attempt = Some delay → (delay ≤ MaxDelay eb)%Z.
Proof.
  unfold Delay. intros Hd.
  case_decide; [done|]. simplify_eq. case_decide; lia.
Qed.

(** As long as [BaseDelay * 2^attempt] is an [int64], the delay is that
    product, capped at [MaxDelay]. *)
Theorem Delay_exponential (eb : ExponentialBackoff) (attempt : Z) :
  (0 ≤ attempt)%Z →
  (0 ≤ BaseDelay eb * 2 ^ attempt ≤ max_int)%Z →
  Delay eb attempt = Some (Z.min (BaseDelay eb * 2 ^ attempt) (MaxDelay eb)).
Proof.
  intros Ha Hfits. unfold Delay.
  rewrite decide_False by lia.
  rewrite wrap_int_mul_r, Z.shiftl_1_l.
  rewrite wrap_int_small by (unfold min_int, max_int in *; lia).
  f_equal. case_decide; lia.
Qed.

(** From attempt 64 on the shift leaves nothing: the product is zero and
    so is the delay (or [MaxDelay], if that is negative). *)
Theorem Delay_shifted_out (eb : ExponentialBackoff) (attempt : Z) :
  (64 ≤ attempt)%Z →
  Delay eb attempt = Some (Z.min 0 (MaxDelay eb)).
Proof.
  intros Ha. unfold Delay.
  rewrite decide_False by lia.
  rewrite wrap_int_shift_out by done.
  rewrite Z.mul_0_r. change (wrap_int 0) with 0%Z.
  f_equal. case_decide; lia.
Qed.

(** One second, capped at thirty: the delays double up to the cap; at
    attempt 34 the product has overflowed to a negative duration, which
    the cap lets through. *)
Definition second : Z := 1000000000%Z.

Example Delay_README :
  let eb := {| BaseDelay := 1 * second; MaxDelay := 30 * second |} in
  Delay eb 0 = Some (1 * second)%Z
  ∧ Delay eb 4 = Some (16 * second)%Z
  ∧ Delay eb 5 = Some (30 * second)%Z
  ∧ Delay eb 34 = Some (-1266874889709551616)%Z
  ∧ Delay eb 64 = Some 0%Z
  ∧ Delay eb (-1) = None.
Proof. vm_compute. repeat split. Qed.

Lemma Delay_exponential_witness :
  Delay {| BaseDelay := 1 * second; MaxDelay := 30 * second |} 3
  = Some (Z.min (1 * second * 2 ^ 3) (30 * second)).
Proof.
  apply (Delay_exponential {| BaseDelay := 1 * second; MaxDelay := 30 * second |} 3).
  - lia.
  - unfold max_int, second. cbn. lia.
Defined.

Lemma Delay_at_most_MaxDelay_witness : (-1266874889709551616 ≤ 30 * second)%Z.
Proof.
  apply (Delay_at_most_MaxDelay {| BaseDelay := 1 * second; MaxDelay := 30 * second |} 34).
  vm_compute. reflexivity.
Defined.

Lemma Delay_shifted_out_witness :
  Delay {| BaseDelay := 1 * second; MaxDelay := 30 * second |} 100
  = Some (Z.min 0 (30 * second)).
Proof.
  apply (Delay_shifted_out {| BaseDelay := 1 * second; MaxDelay := 30 * second |} 100).
  lia.
Defined.

(** *** The shape of every execution of the retry loop *)

Section retry_structure.
Context {Req Resp Err W : Type}.
Variable await : Req → Z → W → option Err * W.
Variable backoff : Z → Z.
Variable next : Handler Req Resp Err W.
Variable req : Req.
Variable N : Z.

(** What the loop, entered with the loop variable at [a], can do: the
    events it causes and what it returns. *)
Inductive RetryRun : Z → option Err → list (RetryEvent Resp Err) → Result Resp Err → Prop :=
| run_exhausted a lastErr :
    (N < a)%Z → RetryRun a lastErr [] (None, lastErr)
| run_success a lastErr resp :
    (a ≤ N)%Z → RetryRun a lastErr [Attempt (resp, None)] (resp, None)
| run_cancelled a lastErr resp e ctxErr :
    (a < N)%Z →
    RetryRun a lastErr [Attempt (resp, Some e); Waited (backoff a) (Some ctxErr)]
      (None, Some ctxErr)
| run_retry a lastErr resp e evs res :
    (a < N)%Z →
    RetryRun (a + 1) (Some e) evs res →
    RetryRun a lastErr (Attempt (resp, Some e) :: Waited (backoff a) None :: evs) res
| run_last a lastErr resp e :
    a = N → RetryRun a lastErr [Attempt (resp, Some e)] (None, Some e).

Lemma retry_loop_RetryRun :
  (N < max_int)%Z →
  ∀ fuel a lastErr st res st',
    (min_int ≤ a)%Z →
    retry_loop (observe_await await) N backoff (observe_next next) req fuel a lastErr st
    = Some (res, st') →
    ∃ evs, log st' = log st ++ evs ∧ RetryRun a lastErr evs res.
Proof.
  intros HN.
  induction fuel as [|fuel IH]; intros a lastErr st res st' Ha Hloop;
    cbn [retry_loop] in Hloop; [done|].
  case_decide as Hle.
  2:{ simplify_eq. exists []. rewrite app_nil_r. split; [done|].
      constructor. lia. }
  destruct (observe_next next req st) as [[[resp err] st1']|] eqn:Hobs; [|done].
  apply observe_next_inv in Hobs as (st1 & Hnext & ->).
  destruct err as [e|].
  2:{ simplify_eq. exists [Attempt (resp, None)]. split; [done|]. by constructor. }
  set (st1' := mkStore (position st1) (log st ++ [Attempt (resp, Some e)], world st1)) in *.
  rewrite int_succ_small in Hloop by (unfold min_int, max_int in *; lia).
  case_decide as Hlt.
  - destruct (await req (backoff a) (world st1)) as [c w2] eqn:Haw.
    rewrite (observe_await_eq await req (backoff a) st1' c w2) in Hloop by exact Haw.
    destruct c as [ctxErr|].
    + simplify_eq.
      exists [Attempt (resp, Some e); Waited (backoff a) (Some ctxErr)].
      split; [cbn; rewrite <- !(assoc_L (++)); reflexivity|]. by constructor.
    + apply IH in Hloop as (evs & Hlog & Hevs); [|lia].
      exists (Attempt (resp, Some e) :: Waited (backoff a) None :: evs).
      split; [rewrite Hlog; cbn; rewrite <- !(assoc_L (++)); reflexivity|].
      by constructor.
  - assert (a = N) as -> by lia.
    destruct fuel as [|fuel]; [done|]. cbn [retry_loop] in Hloop.
    rewrite decide_False in Hloop by lia. simplify_eq.
    exists [Attempt (resp, Some e)]. split; [done|]. by constructor.
Qed.

Lemma RetryRun_attempts_bound a lastErr evs res :
  RetryRun a lastErr evs res →
  length (attempts evs) ≤ Z.to_nat (N + 1 - a)
  ∧ length (waits evs) ≤ length (attempts evs)
  ∧ length (attempts evs) ≤ S (length (waits evs)).
Proof.
  induction 1; unfold attempts, waits in *; cbn in *; try lia.
Qed.

Lemma RetryRun_failures_first a lastErr evs res :
  RetryRun a lastErr evs res →
  ∀ i r, attempts evs !! i = Some r → S i < length (attempts evs) → is_Some (snd r).
Proof.
  induction 1; unfold attempts in *; cbn; intros i r Hi Hlt;
    try (destruct i; simplify_eq/=; lia).
  destruct i as [|i]; simplify_eq/=; [by eexists|].
  eapply IHRetryRun; [exact Hi|lia].
Qed.

Lemma RetryRun_delays a lastErr evs res :
  RetryRun a lastErr evs res →
  fst <$> waits evs
  = (fun i => backoff (a + Z.of_nat i)) <$> seq 0 (length (waits evs)).
Proof.
  induction 1; unfold waits in *; cbn; try done.
  - by rewrite Z.add_0_r.
  - rewrite Z.add_0_r. f_equal. rewrite IHRetryRun.
    rewrite <- fmap_S_seq, <- list_fmap_compose.
    apply list_fmap_ext. intros _ i _. cbn. f_equal. lia.
Qed.

Lemma RetryRun_success_last a lastErr evs res :
  RetryRun a lastErr evs res →
  ∀ pre resp post,
    evs = pre ++ Attempt (resp, None) :: post → post = [] ∧ res = (resp, None).
Proof.
  induction 1; intros pre resp' post Heq;
    try (destruct pre as [|? [|? [|? ?]]]; simplify_eq/=; done).
  destruct pre as [|? [|? pre]]; simplify_eq/=. by eapply IHRetryRun.
Qed.

Lemma RetryRun_no_error a lastErr evs res :
  RetryRun a lastErr evs res →
  snd res = None →
  (evs = [] ∧ res = (None, lastErr)) ∨ last evs = Some (Attempt res).
Proof.
  induction 1; cbn; intros Hres; simplify_eq/=; auto.
  destruct (IHRetryRun Hres) as [[-> ?]|Hlast]; simplify_eq/=.
  right. destruct evs; [done|exact Hlast].
Qed.

Lemma RetryRun_select a lastErr evs res :
  RetryRun a lastErr evs res →
  ∀ pre resp e post,
    evs = pre ++ Attempt (resp, Some e) :: post →
    (a + Z.of_nat (length (attempts pre)) < N)%Z →
    ∃ c post',
      post = Waited (backoff (a + Z.of_nat (length (attempts pre)))) c :: post'.
Proof.
  induction 1; intros pre resp' e' post Heq Hlt.
  - by destruct pre.
  - destruct pre as [|? [|? ?]]; simplify_eq/=.
  - destruct pre as [|? [|? [|? ?]]]; simplify_eq/=.
    rewrite Z.add_0_r. eauto.
  - destruct pre as [|? [|? pre]]; simplify_eq/=.
    + rewrite Z.add_0_r. eauto.
    + rewrite Nat2Z.inj_succ in *.
      pose proof (IHRetryRun pre resp' e' post eq_refl) as Hx.
      destruct Hx as (c & post' & ->); [lia|].
      exists c, post'.
      by replace (a + Z.succ (Z.of_nat (length (attempts pre))))%Z
        with (a + 1 + Z.of_nat (length (attempts pre)))%Z by lia.
  - destruct pre as [|? [|? ?]]; simplify_eq/=. unfold attempts in Hlt. cbn in Hlt. lia.
Qed.

(** C5.  After a failed attempt below [maxRetries] the retrying handler
    always goes through the [select] on the context, with the delay of
    that attempt; and if the context is done during one of these waits,
    that wait is the last event of the execution (no further attempt is
    made) and the handler returns a nil response with the context's
    error, not the error of the attempt before.  Both hold of every
    execution that returns, whatever the inner handler does.  And the
    handler does return, within [maxRetries + 2] loop tests, when the
    inner handler always answers and [maxRetries + 1] is still an
    [int]. *)
Theorem RetryMiddleware_cancelled (st : Store (list (RetryEvent Resp Err) * W)) :
  (∀ fuel res st',
     RetryMiddleware (observe_await await) fuel N backoff (observe_next next) req st
     = Some (res, st') →
     ∃ evs,
       log st' = log st ++ evs
       ∧ (∀ pre d ctxErr post,
            evs = pre ++ Waited d (Some ctxErr) :: post →
            post = [] ∧ res = (None, Some ctxErr))
       ∧ ((N < max_int)%Z →
          ∀ pre resp e post,
            evs = pre ++ Attempt (resp, Some e) :: post →
            (Z.of_nat (length (attempts pre)) < N)%Z →
            ∃ c post',
              post = Waited (backoff (Z.of_nat (length (attempts pre)))) c :: post'))
  ∧ ((N < max_int)%Z →
     (∀ st0, is_Some (next req st0)) →
     ∀ k, is_Some (RetryMiddleware (observe_await await) (Z.to_nat (N + 1) + 1 + k) N
                     backoff (observe_next next) req st)).
Proof.
  unfold RetryMiddleware. split.
  - intros fuel res st' Hrun.
    destruct (retry_loop_cancelled await backoff next req N _ _ _ _ _ _ Hrun)
      as (evs & Hlog & Hfinal).
    exists evs. split; [exact Hlog|]. split; [exact Hfinal|].
    intros HN pre resp e post Hevs Hlt.
    apply (retry_loop_RetryRun HN) in Hrun as (evs' & Hlog' & Hshape);
      [|unfold min_int; lia].
    assert (evs' = evs) as -> by (rewrite Hlog in Hlog'; by apply app_inv_head in Hlog').
    apply (RetryRun_select _ _ _ _ Hshape pre resp e post Hevs). lia.
  - intros HN Htotal k.
    apply (retry_loop_returns await backoff next req N HN Htotal (Z.to_nat (N + 1))).
    + unfold min_int. lia.
    + f_equal. lia.
    + lia.
Qed.

(** However the inner handler and the context behave, an execution of the
    retrying handler makes at most [maxRetries + 1] attempts, waits only
    between two attempts, and every attempt before the last one failed. *)
Theorem RetryMiddleware_attempts_bound (fuel : nat)
    (st st' : Store (list (RetryEvent Resp Err) * W)) (res : Result Resp Err) :
  (N < max_int)%Z →
  RetryMiddleware (observe_await await) fuel N backoff (observe_next next) req st
  = Some (res, st') →
  ∃ evs,
    log st' = log st ++ evs
    ∧ length (attempts evs) ≤ Z.to_nat (N + 1)
    ∧ length (waits evs) ≤ length (attempts evs) ≤ S (length (waits evs))
    ∧ ∀ i r, attempts evs !! i = Some r → S i < length (attempts evs) →
             is_Some (snd r).
Proof.
  intros HN Hrun. unfold RetryMiddleware in Hrun.
  apply (retry_loop_RetryRun HN) in Hrun as (evs & Hlog & Hevs);
    [|unfold min_int; lia].
  exists evs. split; [done|].
  destruct (RetryRun_attempts_bound _ _ _ _ Hevs) as (Hb & Hw1 & Hw2).
  rewrite Z.sub_0_r in Hb.
  repeat split; try done. by eapply RetryRun_failures_first.
Qed.

(** The waits of an execution use [backoff.Delay(0)], [backoff.Delay(1)],
    ... in this order. *)
Theorem RetryMiddleware_backoff_schedule (fuel : nat)
    (st st' : Store (list (RetryEvent Resp Err) * W)) (res : Result Resp Err) :
  (N < max_int)%Z →
  RetryMiddleware (observe_await await) fuel N backoff (observe_next next) req st
  = Some (res, st') →
  ∃ evs,
    log st' = log st ++ evs
    ∧ fst <$> waits evs
      = (fun i => backoff (Z.of_nat i)) <$> seq 0 (length (waits evs)).
Proof.
  intros HN Hrun. unfold RetryMiddleware in Hrun.
  apply (retry_loop_RetryRun HN) in Hrun as (evs & Hlog & Hevs);
    [|unfold min_int; lia].
  exists evs. split; [done|].
  by rewrite (RetryRun_delays _ _ _ _ Hevs).
Qed.

(** A successful attempt ends the execution and its response is what is
    returned; and with [maxRetries >= 0] a result without error is the
    result of the last attempt. *)
Theorem RetryMiddleware_first_success (fuel : nat)
    (st st' : Store (list (RetryEvent Resp Err) * W)) (res : Result Resp Err) :
  (0 ≤ N < max_int)%Z →
  RetryMiddleware (observe_await await) fuel N backoff (observe_next next) req st
  = Some (res, st') →
  ∃ evs,
    log st' = log st ++ evs
    ∧ (∀ pre resp post,
         evs = pre ++ Attempt (resp, None) :: post → post = [] ∧ res = (resp, None))
    ∧ (snd res = None → last evs = Some (Attempt res)).
Proof.
  intros HN Hrun. unfold RetryMiddleware in Hrun.
  apply (retry_loop_RetryRun (proj2 HN)) in Hrun as (evs & Hlog & Hevs);
    [|unfold min_int; lia].
  exists evs. split; [done|]. split; [by eapply RetryRun_success_last|].
  intros Hres. destruct (RetryRun_no_error _ _ _ _ Hevs Hres) as [[-> ?]|?]; [|done].
  inversion Hevs; simplify_eq; lia.
Qed.

(** With a negative [maxRetries] the loop body never runs: the inner
    handler is not called, nothing changes, and the handler returns a nil
    response together with a nil error. *)
Theorem RetryMiddleware_negative_maxRetries (fuel : nat) (st : Store W) :
  (N < 0)%Z →
  RetryMiddleware await (S fuel) N backoff next req st = Some ((None, None), st).
Proof.
  intros HN. unfold RetryMiddleware. cbn [retry_loop].
  by rewrite decide_False by lia.
Qed.

End retry_structure.

(** The context is done during the second wait, the one of 200. *)
Definition done_during_second_wait : unit → Z → unit → option string * unit :=
  fun _ delay w =>
    (if decide (delay = 200%Z) then Some "context canceled"%string else None, w).

Definition cancelled_events : list (RetryEvent unit string) :=
  [Attempt (None, Some "boom"%string); Waited 100 None;
   Attempt (None, Some "boom"%string); Waited 200 (Some "context canceled"%string)].

Lemma RetryMiddleware_cancelled_witness :
  RetryMiddleware (observe_await done_during_second_wait) 5 3 linear_backoff
    (observe_next failing) tt empty_store
  = Some ((None, Some "context canceled"%string),
          {| position := 0; world := (cancelled_events, tt) |})
  ∧ (∀ pre d ctxErr post,
       cancelled_events = pre ++ Waited d (Some ctxErr) :: post →
       post = [] ∧ (None, Some "context canceled"%string) = (@None unit, Some ctxErr))
  ∧ (∀ pre resp e post,
       cancelled_events = pre ++ Attempt (resp, Some e) :: post →
       (Z.of_nat (length (attempts pre)) < 3)%Z →
       ∃ c post',
         post = Waited (linear_backoff (Z.of_nat (length (attempts pre)))) c :: post')
  ∧ is_Some (RetryMiddleware (observe_await done_during_second_wait)
               (Z.to_nat (3 + 1) + 1 + 0) 3 linear_backoff
               (observe_next failing) tt empty_store).
Proof.
  destruct (RetryMiddleware_cancelled done_during_second_wait linear_backoff failing tt 3
              empty_store) as [Hsafe Hreturns].
  destruct (Hsafe 5 (None, Some "context canceled"%string)
              {| position := 0; world := (cancelled_events, tt) |} eq_refl)
    as (evs & Hlog & Hfinal & Hselect).
  cbn in Hlog. subst evs.
  split; [reflexivity|]. split; [exact Hfinal|].
  split; [apply Hselect; unfold max_int; lia|].
  apply Hreturns; [unfold max_int; lia|].
  intros st0. eexists. reflexivity.
Defined.

(** An inner handler that fails twice and then answers; the world counts
    its calls. *)
Definition flaky : Handler unit nat string nat :=
  fun _ st =>
    let n := world st in
    if decide (n < 2) then Some ((None, Some "boom"%string), set_world (S n) st)
    else Some ((Some n, None), set_world (S n) st).

Definition never_done_nat : unit → Z → nat → option string * nat :=
  fun _ _ w => (None, w).

Definition flaky_store : Store (list (RetryEvent nat string) * nat) :=
  {| position := 0; world := ([], 0) |}.

Definition flaky_events : list (RetryEvent nat string) :=
  [Attempt (None, Some "boom"%string); Waited 100 None;
   Attempt (None, Some "boom"%string); Waited 200 None;
   Attempt (Some 2, None)].

Example RetryMiddleware_flaky :
  RetryMiddleware (observe_await never_done_nat) 10 5 linear_backoff
    (observe_next flaky) tt flaky_store
  = Some ((Some 2, None), {| position := 0; world := (flaky_events, 3) |}).
Proof. vm_compute. reflexivity. Qed.

Lemma RetryMiddleware_attempts_bound_witness :
  ∃ evs,
    flaky_events = [] ++ evs
    ∧ length (attempts evs) ≤ Z.to_nat (5 + 1)
    ∧ length (waits evs) ≤ length (attempts evs) ≤ S (length (waits evs))
    ∧ ∀ i r, attempts evs !! i = Some r → S i < length (attempts evs) →
             is_Some (snd r).
Proof.
  apply (RetryMiddleware_attempts_bound never_done_nat linear_backoff flaky tt 5 10
           flaky_store {| position := 0; world := (flaky_events, 3) |} (Some 2, None)).
  - unfold max_int. lia.
  - vm_compute. reflexivity.
Defined.

Lemma RetryMiddleware_backoff_schedule_witness :
  ∃ evs,
    flaky_events = [] ++ evs
    ∧ fst <$> waits evs
      = (fun i => linear_backoff (Z.of_nat i)) <$> seq 0 (length (waits evs)).
Proof.
  apply (RetryMiddleware_backoff_schedule never_done_nat linear_backoff flaky tt 5 10
           flaky_store {| position := 0; world := (flaky_events, 3) |} (Some 2, None)).
  - unfold max_int. lia.
  - vm_compute. reflexivity.
Defined.

Lemma RetryMiddleware_first_success_witness :
  ∃ evs,
    flaky_events = [] ++ evs
    ∧ (∀ pre resp post,
         evs = pre ++ Attempt (resp, None) :: post
         → post = [] ∧ ((Some 2, None) : Result nat string) = (resp, None))
    ∧ (snd ((Some 2, None) : Result nat string) = None
       → last evs = Some (Attempt (Some 2, None))).
Proof.
  apply (RetryMiddleware_first_success never_done_nat linear_backoff flaky tt 5 10
           flaky_store {| position := 0; world := (flaky_events, 3) |} (Some 2, None)).
  - unfold max_int. lia.
  - vm_compute. reflexivity.
Defined.

Lemma RetryMiddleware_negative_maxRetries_witness :
  RetryMiddleware never_done_nat 1 (-1) linear_backoff flaky tt
    {| position := 0; world := 0 |}
  = Some ((None, None), {| position := 0; world := 0 |}).
Proof.
  apply (RetryMiddleware_negative_maxRetries never_done_nat linear_backoff flaky tt (-1) 0).
  lia.
Defined.

(** *** Middlewares that do not delegate, and LoggingMiddleware *)

Section short_circuit.
Context {Req Resp Err W : Type}.

(** A middleware that answers by itself and never calls [next]. *)
Definition short_circuit (h : WHandler Req Resp Err W) : Middleware Req Resp Err W :=
  fun _ req st => lift h req st.

Lemma lookup_app_offset {A} (l1 l2 : list A) i :
  (l1 ++ l2) !! (length l1 + i) = l2 !! i.
Proof. induction l1 as [|x l1 IH]; [done|exact IH]. Qed.

(** Before/after middlewares pushed after anything else: from a cursor
    among them, [Next] runs the closure chain of the ones from the cursor
    on. *)
Lemma Next_around_suffix (pre : list (Middleware Req Resp Err W))
    (ms : list (Around Req Resp Err W)) (t : WHandler Req Resp Err W) :
  ∀ n fuel req p w,
    p ≤ length ms → length ms - p = n → n ≤ fuel →
    Next fuel {| handler := lift t; stack := pre ++ (around <$> ms) |} req
      {| position := length pre + p; world := w |}
    = let '(r, w') := onion (drop p ms) t req w in
      Some (r, {| position := length pre + length ms; world := w' |}).
Proof.
  induction n as [|n IH]; intros fuel req p w Hp Hn Hfuel.
  - assert (p = length ms) as -> by lia.
    rewrite Next_exhausted by (cbn; rewrite length_app, length_fmap; apply le_n).
    rewrite drop_all. unfold lift. cbn.
    destruct (t req w) as [r w']. reflexivity.
  - destruct fuel as [|fuel]; [lia|].
    assert (Hlt : p < length ms) by lia.
    destruct (lookup_lt_is_Some_2 ms p Hlt) as [a Ha].
    rewrite (drop_S _ _ _ Ha).
    rewrite (Next_S _ _ _ _ (around a)).
    2:{ cbn. etrans; [apply lookup_app_offset|].
        by rewrite list_lookup_fmap, Ha. }
    cbn [onion foldr]. fold (onion (drop (S p) ms) t).
    unfold around at 1, around_w at 1.
    cbn [position world set_position set_world].
    destruct (before a req w) as [req' w1].
    change (set_world w1 (set_position (S (length pre + p))
                            {| position := length pre + p; world := w |}))
      with {| position := S (length pre + p); world := w1 |}.
    rewrite (plus_n_Sm (length pre) p).
    rewrite (IH fuel req' (S p) w1) by lia.
    destruct (onion (drop (S p) ms) t req' w1) as [r w2].
    cbn [position world set_world].
    destruct (after a r w2) as [r' w3]. reflexivity.
Qed.

(** Before/after middlewares pushed before a middleware that does not
    delegate: [Next] runs them around its answer and leaves the cursor
    just past it. *)
Lemma Next_until_short_circuit (ms : list (Around Req Resp Err W))
    (h : WHandler Req Resp Err W) (rest : list (Middleware Req Resp Err W))
    (terminal : Handler Req Resp Err W) :
  ∀ n fuel req p w,
    p ≤ length ms → length ms - p = n → n < fuel →
    Next fuel {| handler := terminal;
                 stack := (around <$> ms) ++ short_circuit h :: rest |} req
      {| position := p; world := w |}
    = let '(r, w') := onion (drop p ms) h req w in
      Some (r, {| position := S (length ms); world := w' |}).
Proof.
  induction n as [|n IH]; intros fuel req p w Hp Hn Hfuel;
    (destruct fuel as [|fuel]; [lia|]).
  - assert (p = length ms) as -> by lia.
    rewrite (Next_S _ _ _ _ (short_circuit h)).
    2:{ cbn. rewrite lookup_app_r by (rewrite length_fmap; lia).
        by rewrite length_fmap, Nat.sub_diag. }
    rewrite drop_all. unfold short_circuit, lift. cbn.
    destruct (h req w) as [r w']. reflexivity.
  - assert (Hlt : p < length ms) by lia.
    destruct (lookup_lt_is_Some_2 ms p Hlt) as [a Ha].
    rewrite (drop_S _ _ _ Ha).
    rewrite (Next_S _ _ _ _ (around a)).
    2:{ cbn. rewrite lookup_app_l by (rewrite length_fmap; lia).
        by rewrite list_lookup_fmap, Ha. }
    cbn [onion foldr]. fold (onion (drop (S p) ms) h).
    unfold around at 1, around_w at 1.
    cbn [position world set_position set_world].
    destruct (before a req w) as [req' w1].
    change (set_world w1 (set_position (S p) {| position := p; world := w |}))
      with {| position := S p; world := w1 |}.
    rewrite (IH fuel req' (S p) w1) by lia.
    destruct (onion (drop (S p) ms) h req' w1) as [r w2].
    cbn [position world set_world].
    destruct (after a r w2) as [r' w3]. reflexivity.
Qed.

(** A middleware that answers without calling [next] leaves the cursor
    just past itself: the execution it cuts short runs the middlewares
    pushed before it around its answer and never reaches the terminal
    handler; the next execution on the same stack, if [Reset] is not
    called, starts behind it and runs only the middlewares pushed after it
    and the terminal handler. *)
Theorem Next_short_circuit_then_bypass (ms1 ms2 : list (Around Req Resp Err W))
    (h t : WHandler Req Resp Err W) (req req2 : Req) (st : Store W) (w2 : W) (k : nat) :
  let hs := {| handler := lift t;
               stack := (around <$> ms1) ++ short_circuit h :: (around <$> ms2) |} in
  Next (S (length ms1) + k) hs req (Reset st)
  = (let '(r, w) := onion ms1 h req (world st) in
     Some (r, {| position := S (length ms1); world := w |}))
  ∧ Next (length ms2 + k) hs req2 {| position := S (length ms1); world := w2 |}
    = (let '(r, w) := onion ms2 t req2 w2 in
       Some (r, {| position := S (length ms1) + length ms2; world := w |})).
Proof.
  cbn zeta. split.
  - apply (Next_until_short_circuit ms1 h _ _ (length ms1)); lia.
  - pose proof (Next_around_suffix ((around <$> ms1) ++ [short_circuit h]) ms2 t
                  (length ms2) (length ms2 + k) req2 0 w2) as Hsuf.
    rewrite length_app, length_fmap in Hsuf. cbn [length] in Hsuf.
    rewrite <- (assoc_L (++)) in Hsuf. cbn [app] in Hsuf.
    replace (length ms1 + 1 + 0) with (S (length ms1)) in Hsuf by lia.
    replace (length ms1 + 1 + length ms2) with (S (length ms1) + length ms2)
      in Hsuf by lia.
    rewrite drop_0 in Hsuf. apply Hsuf; lia.
Qed.

(** LoggingMiddleware hands on what [next] returned: the very error,
    none suppressed and none made up, with a nil response beside it, or
    the response when there is no error; it logs the request before
    [next] and the error or the response after it.  The one result it
    does not hand on is a nil response with a nil error: there it
    panics on [resp.StatusCode]. *)
Theorem LoggingMiddleware_keeps_error (logf : LogLine Req Resp Err → W → W)
    (next : Handler Req Resp Err W) (req : Req) (st st2 : Store W)
    (r : Result Resp Err) :
  next req (set_world (logf (LogRequest req) (world st)) st) = Some (r, st2) →
  match r with
  | (None, None) => LoggingMiddleware logf next req st = None
  | (resp, err) =>
      ∃ line,
        LoggingMiddleware logf next req st
        = Some ((match err with Some _ => None | None => resp end, err),
                set_world (logf line (world st2)) st2)
        ∧ (∀ e, err = Some e → line = LogError e)
        ∧ (∀ x, resp = Some x → err = None → line = LogResponse x)
  end.
Proof.
  intros Hnext. unfold LoggingMiddleware. cbn zeta. rewrite Hnext.
  destruct r as [[x|] [e|]]; [| | |done];
    (eexists; split; [reflexivity|]; split; intros; by simplify_eq).
Qed.

(** Where no handler runs, LoggingMiddleware finds nothing to log: around
    a retrying handler with negative [maxRetries], which returns a nil
    response and a nil error without calling the inner handler, it
    panics, whatever the inner handler is. *)
Theorem LoggingMiddleware_negative_maxRetries (logf : LogLine Req Resp Err → W → W)
    (await : Req → Z → W → option Err * W) (backoff : Z → Z) (N : Z) (fuel : nat)
    (next : Handler Req Resp Err W) (req : Req) (st : Store W) :
  (N < 0)%Z →
  RetryMiddleware await (S fuel) N backoff next req
    (set_world (logf (LogRequest req) (world st)) st)
  = Some ((None, None), set_world (logf (LogRequest req) (world st)) st)
  ∧ LoggingMiddleware logf (RetryMiddleware await (S fuel) N backoff next) req st = None.
Proof.
  intros HN.
  assert (Hretry : RetryMiddleware await (S fuel) N backoff next req
                     (set_world (logf (LogRequest req) (world st)) st)
                   = Some ((None, None), set_world (logf (LogRequest req) (world st)) st)).
  { unfold RetryMiddleware. cbn [retry_loop]. by rewrite decide_False by lia. }
  split; [exact Hretry|].
  unfold LoggingMiddleware. cbn zeta. by rewrite Hretry.
Qed.

End short_circuit.

(** An execution cut short by a guard, and the one after it. *)
Example Next_guard_bypassed :
  let guard : WHandler unit unit string (list Event) :=
    fun _ w => ((None, Some "unauthorized"%string), w ++ [Before "guard"]) in
  let hs := {| handler := lift (terminal (fun _ => (Some tt, None)));
               stack := [around (tracing "A"); short_circuit guard;
                         around (tracing "B")] |} in
  Next 3 hs tt {| position := 0; world := [] |}
  = Some ((None, Some "unauthorized"%string),
          {| position := 2; world := [Before "A"; Before "guard"; After "A"] |})
  ∧ Next 3 hs tt {| position := 2; world := [] |}
    = Some ((Some tt, None),
            {| position := 3; world := [Before "B"; Called; After "B"] |}).
Proof. vm_compute. split; reflexivity. Qed.

(** A logger that keeps the lines it is given. *)
Definition keep_lines : LogLine unit nat string → list (LogLine unit nat string)
                        → list (LogLine unit nat string) :=
  fun line w => w ++ [line].

Definition not_found : Handler unit nat string (list (LogLine unit nat string)) :=
  fun _ st => Some ((Some 404, None), st).

Definition refusing : Handler unit nat string (list (LogLine unit nat string)) :=
  fun _ st => Some ((Some 500, Some "refused"%string), st).

Example LoggingMiddleware_lines :
  LoggingMiddleware keep_lines not_found tt {| position := 0; world := [] |}
  = Some ((Some 404, None),
          {| position := 0; world := [LogRequest tt; LogResponse 404] |})
  ∧ LoggingMiddleware keep_lines refusing tt {| position := 0; world := [] |}
    = Some ((None, Some "refused"%string),
            {| position := 0; world := [LogRequest tt; LogError "refused"%string] |}).
Proof. split; reflexivity. Qed.

Lemma LoggingMiddleware_keeps_error_witness :
  ∃ line,
    LoggingMiddleware keep_lines refusing tt {| position := 0; world := [] |}
    = Some ((None, Some "refused"%string),
            set_world (keep_lines line [LogRequest tt])
              {| position := 0; world := [LogRequest tt] |})
    ∧ (∀ e, Some "refused"%string = Some e → line = LogError e)
    ∧ (∀ x, Some 500 = Some x → Some "refused"%string = None → line = LogResponse x).
Proof.
  apply (LoggingMiddleware_keeps_error keep_lines refusing tt
           {| position := 0; world := [] |} {| position := 0; world := [LogRequest tt] |}
           (Some 500, Some "refused"%string)).
  reflexivity.
Defined.

Lemma LoggingMiddleware_negative_maxRetries_witness :
  RetryMiddleware (fun _ _ w => (None, w)) 1 (-1) linear_backoff not_found tt
    (set_world (keep_lines (LogRequest tt) []) {| position := 0; world := [] |})
  = Some ((None, None),
          set_world (keep_lines (LogRequest tt) []) {| position := 0; world := [] |})
  ∧ LoggingMiddleware keep_lines
      (RetryMiddleware (fun _ _ w => (None, w)) 1 (-1) linear_backoff not_found) tt
      {| position := 0; world := [] |}
    = None.
Proof.
  apply (LoggingMiddleware_negative_maxRetries keep_lines (fun _ _ w => (None, w))
           linear_backoff (-1) 0 not_found tt {| position := 0; world := [] |}).
  lia.
Defined.

End Middleware.

(* ===================================================================== *)
(** ** async.go: Promise *)
(* ===================================================================== *)

Module Async.

Section promise.
Context {Resp Err : Type}.

Local Abbreviation Result := (option Resp * option Err)%type.

(** [type Promise struct].  [done] tells whether the channel [done] has
    been closed, [once] whether [sync.Once] has already run a function. *)
Record Promise := mkPromise {
  response : option Resp;
  err : option Err;
  done : bool;
  once : bool
}.

(** [NewPromise] *)
Definition NewPromise : Promise :=
  {| response := None; err := None; done := false; once := false |}.

(** [close(p.done)]; closing a closed channel panics, which is [None]. *)
Definition close_done (p : Promise) : option Promise :=
  if done p then None
  else Some {| response := response p; err := err p; done := true; once := once p |}.

(** [p.once.Do(f)]: [f] runs only if no earlier [Do] ran a function. *)
Definition once_Do (f : Promise → option Promise) (p : Promise) : option Promise :=
  if once p then Some p
  else
    p' ← f p;
    Some {| response := response p'; err := err p'; done := done p'; once := true |}.

(** [Resolve] *)
Definition Resolve (r : option Resp) (p : Promise) : option Promise :=
  once_Do (fun p =>
    close_done {| response := r; err := err p; done := done p; once := once p |}) p.

(** [Reject] *)
Definition Reject (e : option Err) (p : Promise) : option Promise :=
  once_Do (fun p =>
    close_done {| response := response p; err := e; done := done p; once := once p |}) p.

(** [Wait]: the receive from [done] blocks ([None]) until the channel is
    closed; then the two fields are read. *)
Definition Wait (p : Promise) : option Result :=
  if done p then Some (response p, err p) else None.

(** [sync.Once] lets one function body run at a time, so calls of Resolve
    and Reject from several goroutines take effect in some order: a
    history of the promise is a list of calls. *)
Inductive Call :=
| CallResolve (r : option Resp)
| CallReject (e : option Err).

Definition call (c : Call) (p : Promise) : option Promise :=
  match c with
  | CallResolve r => Resolve r p
  | CallReject e => Reject e p
  end.

Fixpoint calls (cs : list Call) (p : Promise) : option Promise :=
  match cs with
  | [] => Some p
  | c :: cs => p' ← call c p; calls cs p'
  end.

(** What a call settles a pending promise to. *)
Definition settled_by (c : Call) : Result :=
  match c with
  | CallResolve r => (r, None)
  | CallReject e => (None, e)
  end.

(** The state of a promise as [Wait], [Then] and [Catch] tell it apart. *)
Inductive State :=
| pending
| fulfilled (r : option Resp)
| rejected (e : Err).

Definition state (p : Promise) : State :=
  match Wait p with
  | None => pending
  | Some (_, Some e) => rejected e
  | Some (r, None) => fulfilled r
  end.

(** The invariant of every promise a program can hold. *)
Definition guarded (p : Promise) : Prop := once p = done p.

Lemma guarded_New : guarded NewPromise.
Proof. reflexivity. Qed.

Lemma call_pending c p :
  guarded p → done p = false →
  ∃ p', call c p = Some p' ∧ guarded p'
        ∧ Wait p' = Some (match c with
                          | CallResolve r => (r, err p)
                          | CallReject e => (response p, e)
                          end).
Proof.
  unfold guarded. destruct p as [r0 e0 d o]; cbn. intros -> ->.
  destruct c; cbn; eexists; repeat split.
Qed.

Lemma call_settled c p :
  guarded p → done p = true → call c p = Some p.
Proof.
  unfold guarded. destruct p as [r0 e0 d o]; cbn. intros -> ->.
  destruct c; reflexivity.
Qed.

Lemma call_guarded c p :
  guarded p → ∃ p', call c p = Some p' ∧ guarded p' ∧ done p' = true
                   ∧ (done p = true → p' = p).
Proof.
  intros Hg. destruct (done p) eqn:Hd.
  - exists p. rewrite call_settled by done. done.
  - destruct (call_pending c p Hg Hd) as (p' & Hc & Hg' & Hw).
    exists p'. repeat split; try done.
    unfold Wait in Hw. by destruct (done p').
Qed.

Lemma calls_settled cs p :
  guarded p → done p = true → calls cs p = Some p.
Proof.
  intros Hg Hd. induction cs as [|c cs IH]; [reflexivity|].
  cbn. rewrite call_settled by done. exact IH.
Qed.

(** C2.  A new promise is pending and [Wait] on it blocks.  The first call
    of Resolve or Reject settles it; every history that starts with that
    call leaves the promise exactly as that call left it, whatever calls
    of Resolve and Reject follow (none of them panics), so every [Wait]
    after the first call returns the pair that call wrote.  Response and
    error are never both set, and the state is not pending again. *)
Theorem Promise_settles_once (c : Call) (cs : list Call) :
  state NewPromise = pending ∧ Wait NewPromise = None
  ∧ ∃ p,
      call c NewPromise = Some p
      ∧ calls (c :: cs) NewPromise = Some p
      ∧ Wait p = Some (settled_by c)
      ∧ state p = match c with
                  | CallResolve r => fulfilled r
                  | CallReject (Some e) => rejected e
                  | CallReject None => fulfilled None
                  end
      ∧ (response p = None ∨ err p = None)
      ∧ (∀ c', call c' p = Some p).
Proof.
  split; [reflexivity|]. split; [reflexivity|].
  destruct (call_guarded c NewPromise guarded_New) as (p & Hc & Hg & Hd & _).
  exists p. split; [exact Hc|].
  split; [cbn [calls]; rewrite Hc; cbn; by apply calls_settled|].
  assert (Hp : p = {| response := fst (settled_by c); err := snd (settled_by c);
                      done := true; once := true |})
    by (destruct c; cbn in Hc; by simplify_eq).
  subst p. repeat split.
  - by destruct c.
  - by destruct c as [r|[e|]].
  - destruct c; cbn; auto.
  - intros c'. by apply call_settled.
Qed.

(** *** Then and Catch: promises on a heap, goroutines in a pool *)

(** The goroutine started by [Then] or [Catch]: the promise it waits on,
    the promise it settles, and the continuation. *)
Inductive Task :=
| ThenTask (src dst : nat) (fn : option Resp → Result)
| CatchTask (src dst : nat) (fn : Err → option Err).

Definition task_dst (t : Task) : nat :=
  match t with ThenTask _ dst _ | CatchTask _ dst _ => dst end.

(** A call of a continuation: the goroutine that made it, the argument. *)
Inductive Invocation :=
| ThenCalled (k : nat) (resp : option Resp)
| CatchCalled (k : nat) (e : Err).

Definition invoked_by (iv : Invocation) : nat :=
  match iv with ThenCalled k _ | CatchCalled k _ => k end.

(** A pointer to a Promise is an index in [promises]; goroutine [k] is
    [tasks !! k], [None] once it has returned; [invoked] lists the calls
    of continuations made so far. *)
Record Sys := mkSys {
  promises : list Promise;
  tasks : list (option Task);
  invoked : list Invocation
}.

Definition wait (i : nat) (s : Sys) : option Result := promises s !! i ≫= Wait.

(** A call of Resolve or Reject on the promise at [i]. *)
Definition settle (i : nat) (c : Call) (s : Sys) : option Sys :=
  p ← promises s !! i;
  p' ← call c p;
  Some {| promises := <[i := p']> (promises s); tasks := tasks s; invoked := invoked s |}.

Definition finish (k : nat) (s : Sys) : Sys :=
  {| promises := promises s; tasks := <[k := None]> (tasks s); invoked := invoked s |}.

Definition record_call (iv : Invocation) (s : Sys) : Sys :=
  {| promises := promises s; tasks := tasks s; invoked := invoked s ++ [iv] |}.

(** [newPromise := NewPromise(); go func() {...}(); return newPromise] *)
Definition spawn (body : nat → Task) (s : Sys) : nat * Sys :=
  let newPromise := length (promises s) in
  (newPromise,
   {| promises := promises s ++ [NewPromise];
      tasks := tasks s ++ [Some (body newPromise)];
      invoked := invoked s |}).

(** [p.Then(fn)] *)
Definition Then (p : nat) (fn : option Resp → Result) (s : Sys) : nat * Sys :=
  spawn (fun newPromise => ThenTask p newPromise fn) s.

(** [p.Catch(fn)] *)
Definition Catch (p : nat) (fn : Err → option Err) (s : Sys) : nat * Sys :=
  spawn (fun newPromise => CatchTask p newPromise fn) s.

(** One run of goroutine [k], from its [p.Wait()] to its return; it cannot
    run ([None]) while [Wait] blocks.  What it read from [p] cannot change
    any more, so the run is taken as one step. *)
Definition run_task (k : nat) (s : Sys) : option Sys :=
  match tasks s !! k with
  | Some (Some (ThenTask src dst fn)) =>
      match wait src s with
      | None => None
      | Some (resp, Some e) => settle dst (CallReject (Some e)) (finish k s)
      | Some (resp, None) =>
          let s' := record_call (ThenCalled k resp) (finish k s) in
          match fn resp with
          | (newResp, Some newErr) => settle dst (CallReject (Some newErr)) s'
          | (newResp, None) => settle dst (CallResolve newResp) s'
          end
      end
  | Some (Some (CatchTask src dst fn)) =>
      match wait src s with
      | None => None
      | Some (resp, Some e) =>
          settle dst (CallReject (fn e)) (record_call (CatchCalled k e) (finish k s))
      | Some (resp, None) => settle dst (CallResolve resp) (finish k s)
      end
  | _ => None
  end.

(** What the program and the scheduler can do next. *)
Inductive Action :=
| ActResolve (i : nat) (r : option Resp)
| ActReject (i : nat) (e : option Err)
| ActThen (i : nat) (fn : option Resp → Result)
| ActCatch (i : nat) (fn : Err → option Err)
| ActRun (k : nat).

Definition step (a : Action) (s : Sys) : option Sys :=
  match a with
  | ActResolve i r => settle i (CallResolve r) s
  | ActReject i e => settle i (CallReject e) s
  | ActThen i fn =>
      if decide (i < length (promises s)) then Some (snd (Then i fn s)) else None
  | ActCatch i fn =>
      if decide (i < length (promises s)) then Some (snd (Catch i fn s)) else None
  | ActRun k => run_task k s
  end.

Fixpoint run (acts : list Action) (s : Sys) : option Sys :=
  match acts with
  | [] => Some s
  | a :: acts => s' ← step a s; run acts s'
  end.

(** Well-formed systems: promises made by [NewPromise] and changed by
    Resolve and Reject only; goroutines settle promises that exist;
    recorded calls were made by goroutines that exist. *)
Definition wf (s : Sys) : Prop :=
  Forall guarded (promises s)
  ∧ Forall (from_option (fun t => task_dst t < length (promises s)) True) (tasks s)
  ∧ Forall (fun iv => invoked_by iv < length (tasks s)) (invoked s).

(** Goroutine [k] is still to run task [t], the promise [q] it is to
    settle is still as [NewPromise] made it, no other goroutine settles
    [q], and [k] has not called its continuation. *)
Definition owns (q k : nat) (t : Task) (s : Sys) : Prop :=
  wf s
  ∧ promises s !! q = Some NewPromise
  ∧ tasks s !! k = Some (Some t)
  ∧ (∀ k' t', tasks s !! k' = Some (Some t') → task_dst t' = q → k' = k)
  ∧ Forall (fun iv => invoked_by iv ≠ k) (invoked s).

(** The actions of everybody else: no call of Resolve or Reject on [q]
    from outside, and goroutine [k] is not the one scheduled. *)
Definition respects (q k : nat) (a : Action) : Prop :=
  match a with
  | ActResolve i _ | ActReject i _ => i ≠ q
  | ActRun k' => k' ≠ k
  | ActThen _ _ | ActCatch _ _ => True
  end.

(** *** Facts about the pool *)

Lemma settle_inv i c s s' :
  wf s → settle i c s = Some s' →
  ∃ p', guarded p'
        ∧ s' = {| promises := <[i := p']> (promises s);
                  tasks := tasks s; invoked := invoked s |}.
Proof.
  intros (Hp & _ & _) Hs. unfold settle in Hs.
  destruct (promises s !! i) as [p|] eqn:Hi; [|done]. cbn in Hs.
  destruct (call_guarded c p) as (p' & Hc & Hg & _).
  { eapply Forall_lookup_1; eauto. }
  rewrite Hc in Hs. cbn in Hs. simplify_eq. eauto.
Qed.

Lemma settle_new q c s :
  promises s !! q = Some NewPromise →
  ∃ s', settle q c s = Some s'
        ∧ wait q s' = Some (settled_by c)
        ∧ tasks s' = tasks s ∧ invoked s' = invoked s.
Proof.
  intros Hq. unfold settle. rewrite Hq. cbn.
  destruct (call_pending c NewPromise guarded_New eq_refl) as (p' & Hc & _ & Hw).
  rewrite Hc. cbn. eexists. split; [reflexivity|].
  unfold wait. cbn. rewrite list_lookup_insert_eq by (by eapply lookup_lt_Some).
  cbn. rewrite Hw. by destruct c.
Qed.

Lemma settle_new_returned q k c s :
  promises s !! q = Some NewPromise →
  tasks s !! k = Some None →
  ∃ s', settle q c s = Some s'
        ∧ wait q s' = Some (settled_by c)
        ∧ invoked s' = invoked s
        ∧ run_task k s' = None.
Proof.
  intros Hq Hk.
  destruct (settle_new q c s Hq) as (s' & Hs & Hw & Ht & Hi).
  exists s'. repeat split; try done.
  unfold run_task. by rewrite Ht, Hk.
Qed.

Lemma finish_returned k s t :
  tasks s !! k = Some t → tasks (finish k s) !! k = Some None.
Proof.
  intros Hk. cbn. apply list_lookup_insert_eq. by eapply lookup_lt_Some.
Qed.

Lemma owns_settle q k t i c s s' :
  i ≠ q → owns q k t s → settle i c s = Some s' → owns q k t s'.
Proof.
  intros Hne (Hwf & Hq & Hk & Huniq & Hinv) Hs.
  destruct (settle_inv _ _ _ _ Hwf Hs) as (p' & Hg & ->).
  destruct Hwf as (Hp & Ht & Hi).
  repeat split; cbn; try done.
  - by apply Forall_insert.
  - by rewrite length_insert.
  - by rewrite list_lookup_insert_ne.
Qed.

Lemma owns_finish q k t k' s :
  k' ≠ k → owns q k t s → owns q k t (finish k' s).
Proof.
  intros Hne ((Hp & Ht & Hi) & Hq & Hk & Huniq & Hinv).
  repeat split; cbn; try done.
  - by apply Forall_insert.
  - by rewrite length_insert.
  - by rewrite list_lookup_insert_ne.
  - intros k'' t' [(_ & ? & _)|(_ & Hl)]%list_lookup_insert_Some Hd; [done|].
    by eapply Huniq.
Qed.

Lemma owns_record q k t iv s :
  invoked_by iv ≠ k → invoked_by iv < length (tasks s) →
  owns q k t s → owns q k t (record_call iv s).
Proof.
  intros Hne Hlt ((Hp & Ht & Hi) & Hq & Hk & Huniq & Hinv).
  repeat split; cbn; try done; apply Forall_app; split; try done;
    by apply Forall_singleton.
Qed.

Lemma owns_spawn q k t body s :
  (∀ n, task_dst (body n) = n) →
  owns q k t s → owns q k t (snd (spawn body s)).
Proof.
  intros Hbody ((Hp & Ht & Hi) & Hq & Hk & Huniq & Hinv).
  pose proof (lookup_lt_Some _ _ _ Hq) as Hqlt.
  pose proof (lookup_lt_Some _ _ _ Hk) as Hklt.
  repeat split; cbn; rewrite ?length_app; cbn.
  - apply Forall_app. split; [done|]. by apply Forall_singleton.
  - apply Forall_app. split.
    + eapply Forall_impl; [exact Ht|]. intros [t'|]; cbn; [lia|done].
    + apply Forall_singleton. cbn. rewrite Hbody. lia.
  - eapply Forall_impl; [exact Hi|]. cbn. lia.
  - by rewrite lookup_app_l.
  - by rewrite lookup_app_l.
  - intros k' t' [Hl|(_ & Hl)]%lookup_app_Some Hd; [by eapply Huniq|].
    apply list_lookup_singleton_Some in Hl as (_ & Hl). simplify_eq.
    rewrite Hbody in Hqlt. lia.
  - done.
Qed.

Lemma spawn_owns body s :
  (∀ n, task_dst (body n) = n) →
  wf s →
  owns (length (promises s)) (length (tasks s)) (body (length (promises s)))
    (snd (spawn body s)).
Proof.
  intros Hbody (Hp & Ht & Hi).
  repeat split; cbn; rewrite ?length_app; cbn.
  - apply Forall_app. split; [done|]. by apply Forall_singleton.
  - apply Forall_app. split.
    + eapply Forall_impl; [exact Ht|]. intros [t'|]; cbn; [lia|done].
    + apply Forall_singleton. cbn. rewrite Hbody. lia.
  - eapply Forall_impl; [exact Hi|]. cbn. lia.
  - by apply list_lookup_middle.
  - by apply list_lookup_middle.
  - intros k' t' [Hl|(Hle & Hl)]%lookup_app_Some Hd.
    + eapply Forall_lookup_1 in Ht; [|exact Hl]. cbn in Ht. lia.
    + apply list_lookup_singleton_Some in Hl as (Hl & _). lia.
  - eapply Forall_impl; [exact Hi|]. cbn. lia.
Qed.

Lemma owns_run_task q k t k' s s' :
  k' ≠ k → owns q k t s → run_task k' s = Some s' → owns q k t s'.
Proof.
  intros Hne Hown Hrun. unfold run_task in Hrun.
  destruct (tasks s !! k') as [[t'|]|] eqn:Hk'; [|done..].
  pose proof (lookup_lt_Some _ _ _ Hk') as Hlt.
  assert (Hdst : task_dst t' ≠ q).
  { intros Hd. destruct Hown as (_ & _ & _ & Huniq & _). eauto. }
  assert (Hfin : owns q k t (finish k' s)) by by apply owns_finish.
  assert (Hlen : length (tasks (finish k' s)) = length (tasks s))
    by (cbn; apply length_insert).
  destruct t' as [src dst fn|src dst fn]; cbn in Hdst;
    destruct (wait src s) as [[resp [e|]]|]; try done.
  - by eapply owns_settle.
  - destruct (fn resp) as [newResp [newErr|]];
      (eapply owns_settle; [exact Hdst| |exact Hrun]);
      apply owns_record; cbn; try done; by rewrite length_insert.
  - eapply owns_settle; [exact Hdst| |exact Hrun].
    apply owns_record; cbn; try done; by rewrite length_insert.
  - by eapply owns_settle.
Qed.

Lemma owns_step q k t a s s' :
  respects q k a → owns q k t s → step a s = Some s' → owns q k t s'.
Proof.
  intros Hr Hown Hstep. destruct a as [i r|i e|i fn|i fn|k']; cbn in *.
  - by eapply owns_settle.
  - by eapply owns_settle.
  - case_decide; simplify_eq. by apply (owns_spawn _ _ _ (fun n => ThenTask i n fn)).
  - case_decide; simplify_eq. by apply (owns_spawn _ _ _ (fun n => CatchTask i n fn)).
  - by eapply owns_run_task.
Qed.

Lemma owns_run q k t acts :
  ∀ s s', Forall (respects q k) acts → owns q k t s → run acts s = Some s' →
          owns q k t s'.
Proof.
  induction acts as [|a acts IH]; intros s s' Hr Hown Hrun; cbn in Hrun.
  - by simplify_eq.
  - apply Forall_cons in Hr as [Ha Hr].
    destruct (step a s) as [s1|] eqn:Hstep; [|done]. cbn in Hrun.
    eapply IH; [exact Hr| |exact Hrun]. by eapply owns_step.
Qed.

(** C6.  [p.Then(fn)] in any well-formed system, [p] settled already or
    not, returns a new promise [q] and starts a goroutine [k].  Whatever
    the rest of the program does in between (short of settling [q] from
    outside), [q] stays pending and [fn] uncalled until [k] runs; [k]
    cannot run while [p] is pending; once [p] is fulfilled with [r], [k]
    runs, calls [fn r] and settles [q] with its outcome (rejected with
    [fn]'s error if there is one, fulfilled with [fn]'s response
    otherwise); once [p] is rejected with [e], [k] runs and rejects [q]
    with the same [e] without calling [fn]. *)
Theorem Then_settles_new_promise (s : Sys) (p : nat) (fn : option Resp → Result)
    (acts : list Action) (s2 : Sys) :
  wf s →
  let '(q, s1) := Then p fn s in
  let k := length (tasks s) in
  Forall (respects q k) acts →
  run acts s1 = Some s2 →
  wait q s2 = None
  ∧ Forall (fun iv => invoked_by iv ≠ k) (invoked s2)
  ∧ match wait p s2 with
    | None => step (ActRun k) s2 = None
    | Some (r, None) =>
        ∃ s3, step (ActRun k) s2 = Some s3
              ∧ invoked s3 = invoked s2 ++ [ThenCalled k r]
              ∧ wait q s3 = Some (match fn r with
                                  | (_, Some newErr) => (None, Some newErr)
                                  | (newResp, None) => (newResp, None)
                                  end)
              ∧ step (ActRun k) s3 = None
    | Some (r, Some e) =>
        ∃ s3, step (ActRun k) s2 = Some s3
              ∧ invoked s3 = invoked s2
              ∧ wait q s3 = Some (None, Some e)
              ∧ step (ActRun k) s3 = None
    end.
Proof.
  intros Hwf. cbn. intros Hacts Hrun.
  pose proof (spawn_owns (fun n => ThenTask p n fn) s (fun _ => eq_refl) Hwf) as Hown.
  eapply owns_run in Hown; [|exact Hacts|exact Hrun].
  destruct Hown as (_ & Hq & Hk & _ & Hinv).
  split; [unfold wait; by rewrite Hq|]. split; [exact Hinv|].
  pose proof (finish_returned _ _ _ Hk) as Hret.
  destruct (wait p s2) as [[r [e|]]|] eqn:Hwait;
    [| |by unfold run_task; rewrite Hk, Hwait].
  - destruct (settle_new_returned (length (promises s)) (length (tasks s))
                (CallReject (Some e)) (finish (length (tasks s)) s2) Hq Hret)
      as (s3 & Hs & Hw & Hi & Hgone).
    exists s3. unfold run_task at 1. by rewrite Hk, Hwait, Hs, Hw, Hi.
  - destruct (fn r) as [newResp [newErr|]] eqn:Hfn.
    + destruct (settle_new_returned (length (promises s)) (length (tasks s))
                  (CallReject (Some newErr))
                  (record_call (ThenCalled (length (tasks s)) r)
                     (finish (length (tasks s)) s2)) Hq Hret)
        as (s3 & Hs & Hw & Hi & Hgone).
      exists s3. unfold run_task at 1. by rewrite Hk, Hwait, Hfn, Hs, Hw, Hi.
    + destruct (settle_new_returned (length (promises s)) (length (tasks s))
                  (CallResolve newResp)
                  (record_call (ThenCalled (length (tasks s)) r)
                     (finish (length (tasks s)) s2)) Hq Hret)
        as (s3 & Hs & Hw & Hi & Hgone).
      exists s3. unfold run_task at 1. by rewrite Hk, Hwait, Hfn, Hs, Hw, Hi.
Qed.

(** C7.  [p.Catch(fn)] returns a new promise [q] and starts a goroutine
    [k]; [q] stays pending and [fn] uncalled until [k] runs, which it
    cannot while [p] is pending.  Once [p] is rejected with [e], [k] runs,
    calls [fn e] and rejects [q] with the transformed error; once [p] is
    fulfilled with [r], [k] runs and fulfils [q] with the same [r] without
    calling [fn]. *)
Theorem Catch_settles_new_promise (s : Sys) (p : nat) (fn : Err → option Err)
    (acts : list Action) (s2 : Sys) :
  wf s →
  let '(q, s1) := Catch p fn s in
  let k := length (tasks s) in
  Forall (respects q k) acts →
  run acts s1 = Some s2 →
  wait q s2 = None
  ∧ Forall (fun iv => invoked_by iv ≠ k) (invoked s2)
  ∧ match wait p s2 with
    | None => step (ActRun k) s2 = None
    | Some (r, Some e) =>
        ∃ s3, step (ActRun k) s2 = Some s3
              ∧ invoked s3 = invoked s2 ++ [CatchCalled k e]
              ∧ wait q s3 = Some (None, fn e)
              ∧ step (ActRun k) s3 = None
    | Some (r, None) =>
        ∃ s3, step (ActRun k) s2 = Some s3
              ∧ invoked s3 = invoked s2
              ∧ wait q s3 = Some (r, None)
              ∧ step (ActRun k) s3 = None
    end.
Proof.
  intros Hwf. cbn. intros Hacts Hrun.
  pose proof (spawn_owns (fun n => CatchTask p n fn) s (fun _ => eq_refl) Hwf) as Hown.
  eapply owns_run in Hown; [|exact Hacts|exact Hrun].
  destruct Hown as (_ & Hq & Hk & _ & Hinv).
  split; [unfold wait; by rewrite Hq|]. split; [exact Hinv|].
  pose proof (finish_returned _ _ _ Hk) as Hret.
  destruct (wait p s2) as [[r [e|]]|] eqn:Hwait;
    [| |by unfold run_task; rewrite Hk, Hwait].
  - destruct (settle_new_returned (length (promises s)) (length (tasks s))
                (CallReject (fn e))
                (record_call (CatchCalled (length (tasks s)) e)
                   (finish (length (tasks s)) s2)) Hq Hret)
      as (s3 & Hs & Hw & Hi & Hgone).
    exists s3. unfold run_task at 1. by rewrite Hk, Hwait, Hs, Hw, Hi.
  - destruct (settle_new_returned (length (promises s)) (length (tasks s))
                (CallResolve r) (finish (length (tasks s)) s2) Hq Hret)
      as (s3 & Hs & Hw & Hi & Hgone).
    exists s3. unfold run_task at 1. by rewrite Hk, Hwait, Hs, Hw, Hi.
Qed.

(** *** Settled promises stay as they are; chains of Then and Catch *)

Lemma settle_Some i c s s' :
  settle i c s = Some s' →
  ∃ p p', promises s !! i = Some p ∧ call c p = Some p'
          ∧ s' = {| promises := <[i := p']> (promises s);
                    tasks := tasks s; invoked := invoked s |}.
Proof.
  unfold settle. intros Hs.
  destruct (promises s !! i) as [p|]; [|done]. cbn in Hs.
  destruct (call c p) as [p'|] eqn:Hc; [|done]. cbn in Hs. simplify_eq.
  by exists p, p'.
Qed.

Lemma settle_wait_stable i j c s s' x :
  Forall guarded (promises s) →
  settle j c s = Some s' → wait i s = Some x → wait i s' = Some x.
Proof.
  intros Hg (p & p' & Hj & Hc & ->)%settle_Some Hw. unfold wait in *. cbn.
  destruct (decide (i = j)) as [->|Hne]; [|by rewrite list_lookup_insert_ne].
  rewrite Hj in Hw. cbn in Hw.
  rewrite list_lookup_insert_eq by (by eapply lookup_lt_Some). cbn.
  assert (done p = true) as Hd by (unfold Wait in Hw; by destruct (done p)).
  rewrite call_settled in Hc; [by simplify_eq|by eapply Forall_lookup_1|done].
Qed.

Lemma wf_settle i c s s' : wf s → settle i c s = Some s' → wf s'.
Proof.
  intros Hwf Hs. destruct (settle_inv _ _ _ _ Hwf Hs) as (p' & Hg & ->).
  destruct Hwf as (Hp & Ht & Hi).
  repeat split; cbn; [by apply Forall_insert|by rewrite length_insert|done].
Qed.

Lemma wf_finish k s : wf s → wf (finish k s).
Proof.
  intros (Hp & Ht & Hi).
  repeat split; cbn; [done|by apply Forall_insert|by rewrite length_insert].
Qed.

Lemma wf_record iv s : invoked_by iv < length (tasks s) → wf s → wf (record_call iv s).
Proof.
  intros Hlt (Hp & Ht & Hi).
  repeat split; cbn; [done..|].
  apply Forall_app. split; [done|by apply Forall_singleton].
Qed.

Lemma wf_spawn body s : (∀ n, task_dst (body n) = n) → wf s → wf (snd (spawn body s)).
Proof. intros Hbody Hwf. by destruct (spawn_owns body s Hbody Hwf). Qed.

Lemma wf_run_task k s s' : wf s → run_task k s = Some s' → wf s'.
Proof.
  intros Hwf Hrun. unfold run_task in Hrun.
  destruct (tasks s !! k) as [[t|]|] eqn:Hk; [|done..].
  pose proof (lookup_lt_Some _ _ _ Hk) as Hlt.
  assert (Hrec : ∀ iv, invoked_by iv = k → wf (record_call iv (finish k s))).
  { intros iv <-. apply wf_record; [cbn; by rewrite length_insert|by apply wf_finish]. }
  destruct t as [src dst fn|src dst fn];
    destruct (wait src s) as [[resp [e|]]|]; try done.
  - eapply wf_settle; [|exact Hrun]. by apply wf_finish.
  - destruct (fn resp) as [newResp [newErr|]];
      (eapply wf_settle; [|exact Hrun]); by apply Hrec.
  - eapply wf_settle; [|exact Hrun]. by apply Hrec.
  - eapply wf_settle; [|exact Hrun]. by apply wf_finish.
Qed.

Lemma wf_step a s s' : wf s → step a s = Some s' → wf s'.
Proof.
  intros Hwf Hstep. destruct a as [i r|i e|i fn|i fn|k]; cbn in Hstep.
  - by eapply wf_settle.
  - by eapply wf_settle.
  - case_decide; simplify_eq. by apply (wf_spawn (fun n => ThenTask i n fn)).
  - case_decide; simplify_eq. by apply (wf_spawn (fun n => CatchTask i n fn)).
  - by eapply wf_run_task.
Qed.

Lemma wait_stable_step a s s' i x :
  wf s → step a s = Some s' → wait i s = Some x → wait i s' = Some x.
Proof.
  intros Hwf Hstep Hw. pose proof Hwf as (Hg & _ & _).
  assert (Hspawn : ∀ body, wait i (snd (spawn body s)) = Some x).
  { intros body. unfold wait in *. cbn.
    destruct (promises s !! i) as [p|] eqn:Hi; [|done].
    by rewrite lookup_app_l, Hi by (by eapply lookup_lt_Some). }
  destruct a as [j r|j e|j fn|j fn|k]; cbn in Hstep.
  - by eapply settle_wait_stable.
  - by eapply settle_wait_stable.
  - case_decide; simplify_eq. apply (Hspawn (fun n => ThenTask j n fn)).
  - case_decide; simplify_eq. apply (Hspawn (fun n => CatchTask j n fn)).
  - unfold run_task in Hstep.
    destruct (tasks s !! k) as [[t|]|]; [|done..].
    destruct t as [src dst fn|src dst fn];
      destruct (wait src s) as [[resp [e|]]|]; try done;
      try (by eapply settle_wait_stable; [|exact Hstep|]).
    destruct (fn resp) as [newResp [newErr|]];
      by eapply settle_wait_stable; [|exact Hstep|].
Qed.

Lemma wf_run (acts : list Action) :
  ∀ s s', wf s → run acts s = Some s' → wf s'.
Proof.
  induction acts as [|a acts IH]; intros s s' Hwf Hrun; cbn in Hrun.
  - by simplify_eq.
  - destruct (step a s) as [s1|] eqn:Hstep; [|done]. cbn in Hrun.
    eapply IH; [|exact Hrun]. by eapply wf_step.
Qed.

Lemma wait_stable_run (acts : list Action) :
  ∀ s s' i x, wf s → run acts s = Some s' → wait i s = Some x → wait i s' = Some x.
Proof.
  induction acts as [|a acts IH]; intros s s' i x Hwf Hrun Hw; cbn in Hrun.
  - by simplify_eq.
  - destruct (step a s) as [s1|] eqn:Hstep; [|done]. cbn in Hrun.
    eapply IH; [by eapply wf_step|exact Hrun|].
    exact (wait_stable_step a s s1 i x Hwf Hstep Hw).
Qed.

(** Whatever the program and the scheduler do, well-formed systems stay
    well-formed and a promise that is settled stays settled with the same
    response and error: no call of Resolve or Reject and no goroutine of
    Then or Catch changes what [Wait] returns. *)
Theorem settled_promise_is_final (acts : list Action) :
  ∀ s s', wf s → run acts s = Some s' →
          wf s' ∧ ∀ i x, wait i s = Some x → wait i s' = Some x.
Proof.
  intros s s' Hwf Hrun. split.
  - by eapply wf_run.
  - intros i x Hw. by eapply wait_stable_run.
Qed.

(** What a goroutine of Then or Catch waits for, what it makes of the pair
    it reads, and the call of its continuation this takes. *)
Definition task_src (t : Task) : nat :=
  match t with ThenTask src _ _ | CatchTask src _ _ => src end.

Definition then_outcome (fn : option Resp → Result) (x : Result) : Result :=
  match x with
  | (_, Some e) => (None, Some e)
  | (r, None) =>
      match fn r with
      | (_, Some newErr) => (None, Some newErr)
      | (newResp, None) => (newResp, None)
      end
  end.

Definition catch_outcome (fn : Err → option Err) (x : Result) : Result :=
  match x with
  | (_, Some e) => (None, fn e)
  | (r, None) => (r, None)
  end.

Definition task_outcome (t : Task) (x : Result) : Result :=
  match t with
  | ThenTask _ _ fn => then_outcome fn x
  | CatchTask _ _ fn => catch_outcome fn x
  end.

Definition task_calls (k : nat) (t : Task) (x : Result) : list Invocation :=
  match t, x with
  | ThenTask _ _ _, (r, None) => [ThenCalled k r]
  | CatchTask _ _ _, (_, Some e) => [CatchCalled k e]
  | _, _ => []
  end.

Lemma run_task_owned q k t s x :
  owns q k t s → task_dst t = q → wait (task_src t) s = Some x →
  ∃ s', run_task k s = Some s'
        ∧ wait q s' = Some (task_outcome t x)
        ∧ invoked s' = invoked s ++ task_calls k t x
        ∧ run_task k s' = None.
Proof.
  intros (_ & Hq & Hk & _ & _) Hdst Hwait.
  pose proof (finish_returned _ _ _ Hk) as Hret.
  destruct t as [src dst fn|src dst fn]; cbn in Hdst, Hwait; subst dst;
    destruct x as [r [e|]]; cbn [task_outcome then_outcome catch_outcome task_calls].
  - destruct (settle_new_returned q k (CallReject (Some e)) (finish k s) Hq Hret)
      as (s3 & Hs & Hw & Hi & Hgone).
    exists s3. unfold run_task at 1. rewrite Hk, Hwait, Hs, Hw, Hi.
    by rewrite app_nil_r.
  - destruct (fn r) as [newResp [newErr|]] eqn:Hfn.
    + destruct (settle_new_returned q k (CallReject (Some newErr))
                  (record_call (ThenCalled k r) (finish k s)) Hq Hret)
        as (s3 & Hs & Hw & Hi & Hgone).
      exists s3. unfold run_task at 1. by rewrite Hk, Hwait, Hfn, Hs, Hw, Hi.
    + destruct (settle_new_returned q k (CallResolve newResp)
                  (record_call (ThenCalled k r) (finish k s)) Hq Hret)
        as (s3 & Hs & Hw & Hi & Hgone).
      exists s3. unfold run_task at 1. by rewrite Hk, Hwait, Hfn, Hs, Hw, Hi.
  - destruct (settle_new_returned q k (CallReject (fn e))
                (record_call (CatchCalled k e) (finish k s)) Hq Hret)
      as (s3 & Hs & Hw & Hi & Hgone).
    exists s3. unfold run_task at 1. by rewrite Hk, Hwait, Hs, Hw, Hi.
  - destruct (settle_new_returned q k (CallResolve r) (finish k s) Hq Hret)
      as (s3 & Hs & Hw & Hi & Hgone).
    exists s3. unfold run_task at 1. rewrite Hk, Hwait, Hs, Hw, Hi.
    by rewrite app_nil_r.
Qed.

Lemma run_task_blocked q k t s :
  owns q k t s → wait (task_src t) s = None → run_task k s = None.
Proof.
  intros (_ & _ & Hk & _ & _) Hwait. unfold run_task. rewrite Hk.
  destruct t; cbn in Hwait; by rewrite Hwait.
Qed.

(** Two goroutines in a row, the second waiting for the promise the first
    one settles. *)
Lemma chain_settles (body1 body2 : nat → Task) (s : Sys) :
  (∀ n, task_dst (body1 n) = n) → (∀ n, task_dst (body2 n) = n) →
  wf s →
  let q1 := length (promises s) in
  let k1 := length (tasks s) in
  let s1 := snd (spawn body1 s) in
  let q2 := length (promises s1) in
  let k2 := length (tasks s1) in
  let t1 := body1 q1 in
  let t2 := body2 q2 in
  task_src t2 = q1 →
  ∀ acts1 s3 x,
    Forall (fun a => respects q1 k1 a ∧ respects q2 k2 a) acts1 →
    run acts1 (snd (spawn body2 s1)) = Some s3 →
    wait (task_src t1) s3 = Some x →
    step (ActRun k2) s3 = None
    ∧ ∃ s4,
        step (ActRun k1) s3 = Some s4
        ∧ wait q1 s4 = Some (task_outcome t1 x)
        ∧ invoked s4 = invoked s3 ++ task_calls k1 t1 x
        ∧ ∀ acts2 s5,
            Forall (respects q2 k2) acts2 →
            run acts2 s4 = Some s5 →
            ∃ s6,
              step (ActRun k2) s5 = Some s6
              ∧ wait q2 s6 = Some (task_outcome t2 (task_outcome t1 x))
              ∧ invoked s6 = invoked s5 ++ task_calls k2 t2 (task_outcome t1 x).
Proof.
  intros Hb1 Hb2 Hwf q1 k1 s1 q2 k2 t1 t2 Hsrc acts1 s3 x Hacts Hrun Hwait.
  assert (Hk12 : k1 ≠ k2).
  { subst k1 k2 s1. cbn. rewrite length_app. cbn. lia. }
  pose proof (spawn_owns body1 s Hb1 Hwf) as Hown1.
  pose proof Hown1 as (Hwf1 & _).
  pose proof (spawn_owns body2 s1 Hb2 Hwf1) as Hown2.
  apply (owns_spawn _ _ _ body2 _ Hb2) in Hown1.
  eapply owns_run in Hown1; [|eapply Forall_impl; [exact Hacts|by intros ? []]|exact Hrun].
  eapply owns_run in Hown2; [|eapply Forall_impl; [exact Hacts|by intros ? []]|exact Hrun].
  split.
  { cbn. eapply run_task_blocked; [exact Hown2|]. fold q2 t2. rewrite Hsrc.
    destruct Hown1 as (_ & Hq & _). unfold wait. fold q1 in Hq. by rewrite Hq. }
  destruct (run_task_owned _ _ _ _ x Hown1 (Hb1 _) Hwait)
    as (s4 & Hrun4 & Hw4 & Hi4 & _).
  exists s4. split; [exact Hrun4|]. split; [exact Hw4|]. split; [exact Hi4|].
  intros acts2 s5 Hacts2 Hrun5.
  assert (Hown4 : owns q2 k2 t2 s4).
  { by eapply (owns_step _ _ _ (ActRun k1)); [|exact Hown2|exact Hrun4]. }
  pose proof Hown4 as (Hwf4 & _).
  eapply owns_run in Hown4; [|exact Hacts2|exact Hrun5].
  apply (wait_stable_run acts2 s4 s5 _ _ Hwf4 Hrun5) in Hw4.
  destruct (run_task_owned _ _ _ _ _ Hown4 (Hb2 _) ltac:(rewrite Hsrc; exact Hw4))
    as (s6 & Hrun6 & Hw6 & Hi6 & _).
  by exists s6.
Qed.

(** [p.Then(f).Then(g)]: when [p] is settled and the two goroutines have
    run (the second cannot run before the first), the last promise holds
    what [g] makes of what [f] makes of [p]'s value; an error, of [p] or of
    [f], goes through to the end and [g] is not called. *)
Theorem Then_Then_composes (s : Sys) (p : nat) (f g : option Resp → Result)
    (acts1 : list Action) (s3 : Sys) (x : Result) :
  wf s →
  let '(q1, s1) := Then p f s in
  let '(q2, s2) := Then q1 g s1 in
  let k1 := length (tasks s) in
  let k2 := length (tasks s1) in
  Forall (fun a => respects q1 k1 a ∧ respects q2 k2 a) acts1 →
  run acts1 s2 = Some s3 →
  wait p s3 = Some x →
  step (ActRun k2) s3 = None
  ∧ ∃ s4,
      step (ActRun k1) s3 = Some s4
      ∧ wait q1 s4 = Some (then_outcome f x)
      ∧ ∀ acts2 s5,
          Forall (respects q2 k2) acts2 →
          run acts2 s4 = Some s5 →
          ∃ s6,
            step (ActRun k2) s5 = Some s6
            ∧ wait q2 s6 = Some (then_outcome g (then_outcome f x))
            ∧ invoked s6
              = invoked s5 ++ match then_outcome f x with
                              | (r, None) => [ThenCalled k2 r]
                              | (_, Some _) => []
                              end.
Proof.
  intros Hwf. cbn -[length]. intros Hacts Hrun Hwait.
  destruct (chain_settles (fun n => ThenTask p n f)
              (fun n => ThenTask (length (promises s)) n g) s
              (fun _ => eq_refl) (fun _ => eq_refl) Hwf eq_refl acts1 s3 x Hacts Hrun Hwait)
    as (Hblocked & s4 & Hrun4 & Hw4 & _ & Hrest).
  split; [exact Hblocked|]. exists s4. split; [exact Hrun4|]. split; [exact Hw4|].
  intros acts2 s5 Hacts2 Hrun5.
  destruct (Hrest acts2 s5 Hacts2 Hrun5) as (s6 & Hrun6 & Hw6 & Hi6).
  exists s6. split; [exact Hrun6|]. split; [exact Hw6|].
  rewrite Hi6. cbn -[length]. by destruct (then_outcome f x) as [r [e|]].
Qed.

(** [p.Then(f).Catch(h)]: the last promise holds what [h] makes of the
    error of [p] or of [f], or the response of [f] untouched if there was
    no error; [h] is called exactly when [p] was rejected or [f] failed. *)
Theorem Then_Catch_composes (s : Sys) (p : nat) (f : option Resp → Result)
    (h : Err → option Err) (acts1 : list Action) (s3 : Sys) (x : Result) :
  wf s →
  let '(q1, s1) := Then p f s in
  let '(q2, s2) := Catch q1 h s1 in
  let k1 := length (tasks s) in
  let k2 := length (tasks s1) in
  Forall (fun a => respects q1 k1 a ∧ respects q2 k2 a) acts1 →
  run acts1 s2 = Some s3 →
  wait p s3 = Some x →
  step (ActRun k2) s3 = None
  ∧ ∃ s4,
      step (ActRun k1) s3 = Some s4
      ∧ wait q1 s4 = Some (then_outcome f x)
      ∧ ∀ acts2 s5,
          Forall (respects q2 k2) acts2 →
          run acts2 s4 = Some s5 →
          ∃ s6,
            step (ActRun k2) s5 = Some s6
            ∧ wait q2 s6 = Some (catch_outcome h (then_outcome f x))
            ∧ invoked s6
              = invoked s5 ++ match then_outcome f x with
                              | (_, Some e) => [CatchCalled k2 e]
                              | (_, None) => []
                              end.
Proof.
  intros Hwf. cbn -[length]. intros Hacts Hrun Hwait.
  destruct (chain_settles (fun n => ThenTask p n f)
              (fun n => CatchTask (length (promises s)) n h) s
              (fun _ => eq_refl) (fun _ => eq_refl) Hwf eq_refl acts1 s3 x Hacts Hrun Hwait)
    as (Hblocked & s4 & Hrun4 & Hw4 & _ & Hrest).
  split; [exact Hblocked|]. exists s4. split; [exact Hrun4|]. split; [exact Hw4|].
  intros acts2 s5 Hacts2 Hrun5.
  destruct (Hrest acts2 s5 Hacts2 Hrun5) as (s6 & Hrun6 & Hw6 & Hi6).
  exists s6. split; [exact Hrun6|]. split; [exact Hw6|].
  rewrite Hi6. cbn -[length]. by destruct (then_outcome f x) as [r [e|]].
Qed.

End promise.

Arguments Promise : clear implicits.
Arguments Call : clear implicits.
Arguments State : clear implicits.
Arguments Task : clear implicits.
Arguments Invocation : clear implicits.
Arguments Sys : clear implicits.
Arguments Action : clear implicits.

(** Concrete runs, with numbers for responses and strings for errors. *)
Definition one_pending : Sys nat string :=
  {| promises := [NewPromise]; tasks := []; invoked := [] |}.

Definition add_one : option nat → option nat * option string :=
  fun r => (S <$> r, None).

Definition wrap_error : string → option string :=
  fun e => Some ("wrapped: " +:+ e)%string.

Lemma wf_one_pending : wf one_pending.
Proof. repeat split; repeat constructor. Defined.

Example Then_after_fulfilment :
  (run [ActThen 0 add_one; ActResolve 0 (Some 7); ActRun 0] one_pending
     ≫= fun s => Some (wait 1 s, invoked s))
  = Some (Some (Some 8, None), [ThenCalled 0 (Some 7)]).
Proof. reflexivity. Qed.

Example Then_on_settled_promise :
  (run [ActResolve 0 (Some 7); ActThen 0 add_one; ActRun 0] one_pending
     ≫= fun s => Some (wait 1 s, invoked s))
  = Some (Some (Some 8, None), [ThenCalled 0 (Some 7)]).
Proof. reflexivity. Qed.

Example Then_after_rejection :
  (run [ActThen 0 add_one; ActReject 0 (Some "boom"%string); ActRun 0] one_pending
     ≫= fun s => Some (wait 1 s, invoked s))
  = Some (Some (None, Some "boom"%string), []).
Proof. reflexivity. Qed.

Example Then_blocked_while_pending :
  run [ActThen 0 add_one; ActRun 0] one_pending = None.
Proof. reflexivity. Qed.

Example Catch_after_rejection :
  (run [ActCatch 0 wrap_error; ActReject 0 (Some "boom"%string); ActRun 0] one_pending
     ≫= fun s => Some (wait 1 s, invoked s))
  = Some (Some (None, Some "wrapped: boom"%string), [CatchCalled 0 "boom"%string]).
Proof. reflexivity. Qed.

Example Catch_after_fulfilment :
  (run [ActCatch 0 wrap_error; ActResolve 0 (Some 7); ActRun 0] one_pending
     ≫= fun s => Some (wait 1 s, invoked s))
  = Some (Some (Some 7, None), []).
Proof. reflexivity. Qed.

(** The system after [p.Then(add_one)] and then [p.Resolve(7)]. *)
Definition then_resolved : Sys nat string :=
  {| promises := [{| response := Some 7; err := None; done := true; once := true |};
                  NewPromise];
     tasks := [Some (ThenTask 0 1 add_one)];
     invoked := [] |}.

(** The system after [p.Catch(wrap_error)] and then [p.Reject("boom")]. *)
Definition catch_rejected : Sys nat string :=
  {| promises := [{| response := None; err := Some "boom"%string;
                     done := true; once := true |};
                  NewPromise];
     tasks := [Some (CatchTask 0 1 wrap_error)];
     invoked := [] |}.

Lemma Then_settles_new_promise_witness :
  wait 1 then_resolved = None
  ∧ Forall (fun iv => invoked_by iv ≠ 0) (invoked then_resolved)
  ∧ ∃ s3, step (ActRun 0) then_resolved = Some s3
          ∧ invoked s3 = invoked then_resolved ++ [ThenCalled 0 (Some 7)]
          ∧ wait 1 s3 = Some (Some 8, None)
          ∧ step (ActRun 0) s3 = None.
Proof.
  apply (Then_settles_new_promise one_pending 0 add_one [ActResolve 0 (Some 7)]
           then_resolved wf_one_pending).
  - repeat constructor. cbn. lia.
  - reflexivity.
Defined.

Lemma Catch_settles_new_promise_witness :
  wait 1 catch_rejected = None
  ∧ Forall (fun iv => invoked_by iv ≠ 0) (invoked catch_rejected)
  ∧ ∃ s3, step (ActRun 0) catch_rejected = Some s3
          ∧ invoked s3 = invoked catch_rejected ++ [CatchCalled 0 "boom"%string]
          ∧ wait 1 s3 = Some (None, Some "wrapped: boom"%string)
          ∧ step (ActRun 0) s3 = None.
Proof.
  apply (Catch_settles_new_promise one_pending 0 wrap_error
           [ActReject 0 (Some "boom"%string)] catch_rejected wf_one_pending).
  - repeat constructor. cbn. lia.
  - reflexivity.
Defined.

(** Concrete chains. *)
Lemma wf_then_resolved : wf then_resolved.
Proof. repeat split; repeat constructor. Defined.

Lemma settled_promise_is_final_witness :
  ∃ s', run [ActReject 0 (Some "late"%string); ActResolve 0 (Some 9); ActRun 0]
          then_resolved = Some s'
        ∧ wf s'
        ∧ ∀ i x, wait i then_resolved = Some x → wait i s' = Some x.
Proof.
  eexists. split; [reflexivity|].
  apply (settled_promise_is_final
           [ActReject 0 (Some "late"%string); ActResolve 0 (Some 9); ActRun 0]
           then_resolved _ wf_then_resolved).
  reflexivity.
Defined.

(** The system after [p.Then(add_one).Then(add_one)] and [p.Resolve(7)],
    and after [p.Then(add_one).Catch(wrap_error)] and [p.Reject("boom")]. *)
Definition then_then_resolved : Sys nat string :=
  {| promises := [{| response := Some 7; err := None; done := true; once := true |};
                  NewPromise; NewPromise];
     tasks := [Some (ThenTask 0 1 add_one); Some (ThenTask 1 2 add_one)];
     invoked := [] |}.

Definition then_catch_rejected : Sys nat string :=
  {| promises := [{| response := None; err := Some "boom"%string;
                     done := true; once := true |};
                  NewPromise; NewPromise];
     tasks := [Some (ThenTask 0 1 add_one); Some (CatchTask 1 2 wrap_error)];
     invoked := [] |}.

Example Then_Then_run :
  (run [ActRun 0; ActRun 1] then_then_resolved ≫= fun s => Some (wait 2 s, invoked s))
  = Some (Some (Some 9, None), [ThenCalled 0 (Some 7); ThenCalled 1 (Some 8)]).
Proof. reflexivity. Qed.

Example Then_Catch_run :
  (run [ActRun 0; ActRun 1] then_catch_rejected ≫= fun s => Some (wait 2 s, invoked s))
  = Some (Some (None, Some "wrapped: boom"%string), [CatchCalled 1 "boom"%string]).
Proof. reflexivity. Qed.

Lemma Then_Then_composes_witness :
  step (ActRun 1) then_then_resolved = None
  ∧ ∃ s4,
      step (ActRun 0) then_then_resolved = Some s4
      ∧ wait 1 s4 = Some (then_outcome add_one (Some 7, None))
      ∧ ∀ acts2 s5,
          Forall (respects 2 1) acts2 →
          run acts2 s4 = Some s5 →
          ∃ s6,
            step (ActRun 1) s5 = Some s6
            ∧ wait 2 s6
              = Some (then_outcome add_one (then_outcome add_one (Some 7, None)))
            ∧ invoked s6
              = invoked s5 ++ match then_outcome add_one (Some 7, None) with
                              | (r, None) => [ThenCalled 1 r]
                              | (_, Some _) => []
                              end.
Proof.
  apply (Then_Then_composes one_pending 0 add_one add_one [ActResolve 0 (Some 7)]
           then_then_resolved (Some 7, None) wf_one_pending).
  - repeat constructor; cbn; lia.
  - reflexivity.
  - reflexivity.
Defined.

Lemma Then_Catch_composes_witness :
  step (ActRun 1) then_catch_rejected = None
  ∧ ∃ s4,
      step (ActRun 0) then_catch_rejected = Some s4
      ∧ wait 1 s4 = Some (then_outcome add_one (None, Some "boom"%string))
      ∧ ∀ acts2 s5,
          Forall (respects 2 1) acts2 →
          run acts2 s4 = Some s5 →
          ∃ s6,
            step (ActRun 1) s5 = Some s6
            ∧ wait 2 s6
              = Some (catch_outcome wrap_error
                        (then_outcome add_one (None, Some "boom"%string)))
            ∧ invoked s6
              = invoked s5 ++ match then_outcome add_one (None, Some "boom"%string) with
                              | (_, Some e) => [CatchCalled 1 e]
                              | (_, None) => []
                              end.
Proof.
  apply (Then_Catch_composes one_pending 0 add_one wrap_error
           [ActReject 0 (Some "boom"%string)]
           then_catch_rejected (None, Some "boom"%string) wf_one_pending).
  - repeat constructor; cbn; lia.
  - reflexivity.
  - reflexivity.
Defined.

End Async.

(* ===================================================================== *)
(** ** client.go *)
(* ===================================================================== *)

Module Client.

(** [type Auth struct] *)
Record Auth := mkAuth { Username : string; Password : string }.

(** [type MultipartFile struct], [type MultipartData struct] (multipart.go) *)
Record MultipartFile := mkMultipartFile {
  FilePath : string;
  Filename : string;
  Content : list Byte.byte
}.

Record MultipartData := mkMultipartData {
  Fields : gmap string string;
  Files : gmap string MultipartFile
}.

(** What the client takes from the standard library and the network:
    [net/url], [encoding/json], [mime/multipart], [net/http], [io].  A Go
    map that is [nil] reads like an empty one and is the empty [gmap]. *)
Class Env := {
  Reader : Type;
  Cookie : Type;
  JSONValue : Type;
  URL : Type;
  HTTPClient : Type;
  HTTPRequest : Type;
  HTTPResponse : Type;
  Err : Type;
  World : Type;
  url_Parse : string → option URL;
  url_with_query : URL → gmap string string → string;
  url_Values_Encode : gmap string string → string;
  json_Marshal : JSONValue → list Byte.byte + Err;
  bytes_NewBuffer : list Byte.byte → Reader;
  strings_NewReader : string → Reader;
  multipart_write : MultipartData → (Reader * string) + Err;
  http_NewRequest : string → string → option Reader → HTTPRequest + Err;
  Header_Set : string → string → HTTPRequest → HTTPRequest;
  SetBasicAuth : string → string → HTTPRequest → HTTPRequest;
  AddCookie : Cookie → HTTPRequest → HTTPRequest;
  httpClient_Do : HTTPClient → HTTPRequest → World → (HTTPResponse + Err) * World;
  io_ReadAll_Close : HTTPResponse → World → (list Byte.byte + Err) * World
}.

Section client.
Context `{Env}.

(** [type RequestOptions struct]; [OptAuth] is the field [Auth]. *)
Record RequestOptions := mkRequestOptions {
  Headers : gmap string string;
  QueryParams : gmap string string;
  FormData : gmap string string;
  JSON : option JSONValue;
  Body : option Reader;
  Timeout : Z;
  OptAuth : option Auth;
  Cookies : list Cookie;
  AllowRedirects : bool;
  Multipart : option MultipartData
}.

(** [&RequestOptions{}]: every field has its zero value. *)
Definition zeroRequestOptions : RequestOptions :=
  {| Headers := ∅; QueryParams := ∅; FormData := ∅; JSON := None; Body := None;
     Timeout := 0; OptAuth := None; Cookies := []; AllowRedirects := false;
     Multipart := None |}.

(** [type Response struct]: the embedded http.Response and the body read
    from it. *)
Record Response := mkResponse {
  Raw : HTTPResponse;
  RespBody : list Byte.byte
}.

(** [type Client struct] *)
Record Client := mkClient {
  httpClient : HTTPClient;
  baseURL : string;
  headers : gmap string string;
  timeout : Z;
  auth : option Auth
}.

Definition Result : Type := option Response * option Err.

(** Code that reads and writes the world and may panic on a nil pointer
    ([None]). *)
Definition M (A : Type) : Type := World → option (A * World).

Definition ret {A} (a : A) : M A := fun w => Some (a, w).

Definition bind {A B} (m : M A) (k : A → M B) : M B :=
  fun w => match m w with
           | None => None
           | Some (a, w') => k a w'
           end.

Local Notation "'let*' x ':=' e 'in' k" := (bind e (fun x => k))
  (at level 10, x pattern, e at level 100, k at level 200).

(** [options.F] for a pointer [options]: a nil pointer dereference
    panics. *)
Definition field {A} (options : option RequestOptions) (F : RequestOptions → A) : M A :=
  fun w => match options with
           | None => None
           | Some o => Some (F o, w)
           end.

(** A call that acts on the world and cannot panic. *)
Definition effect {A} (f : World → A * World) : M A := fun w => Some (f w).

(** [strings.TrimLeft(s, "/")], [strings.TrimRight(s, "/")] *)
Fixpoint TrimLeft_slash (s : string) : string :=
  match s with
  | String "/"%char s' => TrimLeft_slash s'
  | _ => s
  end.

Fixpoint TrimRight_slash (s : string) : string :=
  match s with
  | EmptyString => EmptyString
  | String c s' =>
      match c, TrimRight_slash s' with
      | "/"%char, EmptyString => EmptyString
      | _, t => String c t
      end
  end.

(** [buildURL] *)
Definition buildURL (c : Client) (path : string) : string :=
  if decide (baseURL c = ""%string) then path
  else (TrimRight_slash (baseURL c) +:+ "/" +:+ TrimLeft_slash path)%string.

(** [addQueryParams] *)
Definition addQueryParams (requestURL : string) (params : gmap string string) : string :=
  match url_Parse requestURL with
  | None => requestURL
  | Some u => url_with_query u params
  end.

(** [prepareBody]: the body, the content type, an error. *)
Definition prepareBody (options : option RequestOptions)
  : M (option Reader * string * option Err) :=
  let* body := field options Body in
  match body with
  | Some b => ret (Some b, ""%string, None)
  | None =>
      let* json := field options JSON in
      match json with
      | Some j =>
          match json_Marshal j with
          | inr err => ret (None, ""%string, Some err)
          | inl jsonData =>
              ret (Some (bytes_NewBuffer jsonData), "application/json"%string, None)
          end
      | None =>
          let* formData := field options FormData in
          if decide (0 < size formData) then
            ret (Some (strings_NewReader (url_Values_Encode formData)),
                 "application/x-www-form-urlencoded"%string, None)
          else
            let* multipart := field options Multipart in
            match multipart with
            | Some md =>
                match multipart_write md with
                | inr err => ret (None, ""%string, Some err)
                | inl (r, contentType) => ret (Some r, contentType, None)
                end
            | None => ret (None, ""%string, None)
            end
      end
  end.

(** [for k, v := range m { req.Header.Set(k, v) }]; Go leaves the order of
    the iteration open, the model takes the order of the keys. *)
Definition set_all (m : gmap string string) (req : HTTPRequest) : HTTPRequest :=
  foldl (fun r kv => Header_Set (fst kv) (snd kv) r) req (map_to_list m).

(** [setHeaders] *)
Definition setHeaders (c : Client) (req : HTTPRequest)
    (customHeaders : gmap string string) (contentType : string) : HTTPRequest :=
  let req := set_all (headers c) req in
  let req := set_all customHeaders req in
  if decide (contentType = ""%string) then req
  else Header_Set "Content-Type" contentType req.

(** [Request] *)
Definition Request (c : Client) (method path : string)
    (options : option RequestOptions) : M Result :=
  let options :=
    match options with
    | None => Some zeroRequestOptions
    | Some _ => options
    end in
  let requestURL := buildURL c path in
  let* queryParams := field options QueryParams in
  let requestURL :=
    if decide (0 < size queryParams) then addQueryParams requestURL queryParams
    else requestURL in
  let* prepared := prepareBody options in
  match prepared with
  | (_, _, Some err) => ret (None, Some err)
  | (body, contentType, None) =>
      match http_NewRequest method requestURL body with
      | inr err => ret (None, Some err)
      | inl req =>
          let* customHeaders := field options Headers in
          let req := setHeaders c req customHeaders contentType in
          let* optAuth := field options OptAuth in
          let req :=
            match optAuth, auth c with
            | Some a, _ => SetBasicAuth (Username a) (Password a) req
            | None, Some a => SetBasicAuth (Username a) (Password a) req
            | None, None => req
            end in
          let* cookies := field options Cookies in
          let req := foldl (fun r cookie => AddCookie cookie r) req cookies in
          let* sent := effect (httpClient_Do (httpClient c) req) in
          match sent with
          | inr err => ret (None, Some err)
          | inl resp =>
              let* read := effect (io_ReadAll_Close resp) in
              match read with
              | inr err => ret (None, Some err)
              | inl respBody =>
                  ret (Some {| Raw := resp; RespBody := respBody |}, None)
              end
          end
      end
  end.

(** [Get], [Post], [Put], [Delete], [Patch] *)
Definition Get (c : Client) (path : string) (options : option RequestOptions) : M Result :=
  Request c "GET" path options.
Definition Post (c : Client) (path : string) (options : option RequestOptions) : M Result :=
  Request c "POST" path options.
Definition Put (c : Client) (path : string) (options : option RequestOptions) : M Result :=
  Request c "PUT" path options.
Definition Delete (c : Client) (path : string) (options : option RequestOptions) : M Result :=
  Request c "DELETE" path options.
Definition Patch (c : Client) (path : string) (options : option RequestOptions) : M Result :=
  Request c "PATCH" path options.

(** *** Facts *)

Lemma bind_Some {A B} (m : M A) (k : A → M B) w a w' :
  m w = Some (a, w') → bind m k w = k a w'.
Proof. intros Hm. unfold bind. by rewrite Hm. Qed.

Lemma field_Some {A} o (F : RequestOptions → A) w :
  field (Some o) F w = Some (F o, w).
Proof. reflexivity. Qed.

Lemma prepareBody_returns o w :
  ∃ prepared, prepareBody (Some o) w = Some (prepared, w).
Proof.
  unfold prepareBody, bind, field, ret.
  destruct (Body o); [eauto|].
  destruct (JSON o) as [j|]; [destruct (json_Marshal j); eauto|].
  case_decide; [eauto|].
  destruct (Multipart o) as [md|]; [|eauto].
  destruct (multipart_write md) as [[r ct]|]; eauto.
Qed.

(** With a pointer that is not nil the request returns: there is no other
    pointer for it to trip over. *)
Lemma Request_not_nil_returns c method path o w :
  is_Some (Request c method path (Some o) w).
Proof.
  unfold Request.
  rewrite (bind_Some _ _ w _ w (field_Some _ _ _)).
  destruct (prepareBody_returns o w) as [[[body contentType] err] Hp].
  rewrite (bind_Some _ _ w _ w Hp).
  destruct err; [by eexists|].
  destruct (http_NewRequest _ _ _) as [req|]; [|by eexists].
  rewrite (bind_Some _ _ w _ w (field_Some _ _ _)).
  rewrite (bind_Some _ _ w _ w (field_Some _ _ _)).
  rewrite (bind_Some _ _ w _ w (field_Some _ _ _)).
  unfold bind, effect, ret.
  destruct (httpClient_Do _ _ w) as [[resp|] w1]; [|by eexists].
  destruct (io_ReadAll_Close resp w1) as [[respBody|] w2]; by eexists.
Qed.

Lemma Request_returns c method path options w :
  is_Some (Request c method path options w).
Proof.
  destruct options as [o|]; [apply Request_not_nil_returns|].
  apply (Request_not_nil_returns c method path zeroRequestOptions w).
Qed.

(** C10.  [Request], and with it [Get], [Post], [Put], [Delete] and
    [Patch], called with a nil options pointer does what it does with a
    pointer to a new empty RequestOptions, and it returns: the nil pointer
    is replaced before any field is read, so no read dereferences nil. *)
Theorem Request_nil_options (c : Client) (method path : string) (w : World) :
  Request c method path None w = Request c method path (Some zeroRequestOptions) w
  ∧ is_Some (Request c method path None w)
  ∧ Get c path None w = Get c path (Some zeroRequestOptions) w
  ∧ Post c path None w = Post c path (Some zeroRequestOptions) w
  ∧ Put c path None w = Put c path (Some zeroRequestOptions) w
  ∧ Delete c path None w = Delete c path (Some zeroRequestOptions) w
  ∧ Patch c path None w = Patch c path (Some zeroRequestOptions) w
  ∧ is_Some (Get c path None w) ∧ is_Some (Post c path None w)
  ∧ is_Some (Put c path None w) ∧ is_Some (Delete c path None w)
  ∧ is_Some (Patch c path None w).
Proof.
  assert (Heq : ∀ m, Request c m path None w
                     = Request c m path (Some zeroRequestOptions) w)
    by reflexivity.
  assert (Hret : ∀ m, is_Some (Request c m path None w))
    by (intros m; rewrite Heq; apply Request_not_nil_returns).
  unfold Get, Post, Put, Delete, Patch. repeat split; auto.
Qed.

(** *** What Request returns, and what it leaves alone *)

(** The URL of the request: the base URL joined with the path, with the
    query parameters when there are some. *)
Definition requestURL (c : Client) (path : string) (o : RequestOptions) : string :=
  if decide (0 < size (QueryParams o)) then addQueryParams (buildURL c path) (QueryParams o)
  else buildURL c path.

Lemma prepareBody_world o w prepared w' :
  prepareBody (Some o) w = Some (prepared, w') → w' = w.
Proof.
  intros Hp. destruct (prepareBody_returns o w) as [prepared' Hp'].
  congruence.
Qed.

Lemma Request_result_shape (c : Client) (method path : string)
    (options : option RequestOptions) (w w' : World) (r : Result) :
  Request c method path options w = Some (r, w') →
  (∃ resp, r = (Some resp, None)) ∨ (∃ err, r = (None, Some err)).
Proof.
  assert (Hsome : ∀ o, Request c method path (Some o) w = Some (r, w') →
            (∃ resp, r = (Some resp, None)) ∨ (∃ err, r = (None, Some err))).
  { intros o. unfold Request.
    rewrite (bind_Some _ _ w _ w (field_Some _ _ _)).
    destruct (prepareBody_returns o w) as [[[body contentType] err] Hp].
    rewrite (bind_Some _ _ w _ w Hp).
    destruct err; [unfold ret; intros; simplify_eq; eauto|].
    destruct (http_NewRequest _ _ _) as [req|];
      [|unfold ret; intros; simplify_eq; eauto].
    rewrite (bind_Some _ _ w _ w (field_Some _ _ _)).
    rewrite (bind_Some _ _ w _ w (field_Some _ _ _)).
    rewrite (bind_Some _ _ w _ w (field_Some _ _ _)).
    unfold bind, effect, ret.
    destruct (httpClient_Do _ _ w) as [[resp|] w1]; [|intros; simplify_eq; eauto].
    destruct (io_ReadAll_Close resp w1) as [[respBody|] w2];
      intros; simplify_eq; eauto. }
  destruct options as [o|]; [apply Hsome|apply (Hsome zeroRequestOptions)].
Qed.

(** Request always returns, and what it returns is either a response
    and a nil error, or a nil response and an error: never both, never
    neither. *)
Theorem Request_response_xor_error (c : Client) (method path : string)
    (options : option RequestOptions) (w : World) :
  ∃ r w',
    Request c method path options w = Some (r, w')
    ∧ ((∃ resp, r = (Some resp, None)) ∨ (∃ err, r = (None, Some err))).
Proof.
  destruct (Request_returns c method path options w) as [[r w'] Hr].
  exists r, w'. split; [exact Hr|].
  by eapply Request_result_shape.
Qed.

(** A request that cannot be put together is not sent: when preparing the
    body fails, or [http.NewRequest] refuses the method or the URL,
    Request returns that error and the world is as it was. *)
Theorem Request_fails_before_sending (c : Client) (method path : string)
    (o : RequestOptions) (w : World) (body : option Reader) (contentType : string)
    (prepErr : option Err) :
  prepareBody (Some o) w = Some ((body, contentType, prepErr), w) →
  match prepErr, http_NewRequest method (requestURL c path o) body with
  | Some e, _ => Request c method path (Some o) w = Some ((None, Some e), w)
  | None, inr e => Request c method path (Some o) w = Some ((None, Some e), w)
  | None, inl _ => True
  end.
Proof.
  intros Hp. unfold Request, requestURL.
  rewrite (bind_Some _ _ w _ w (field_Some _ _ _)).
  rewrite (bind_Some _ _ w _ w Hp).
  destruct prepErr; [done|].
  by destruct (http_NewRequest _ _ _).
Qed.

(** The fields [Timeout] and [AllowRedirects] of the options are never
    read: two calls whose options differ in them only do the same. *)
Theorem Request_ignores_Timeout_AllowRedirects (c : Client) (method path : string)
    (o : RequestOptions) (t : Z) (redirects : bool) (w : World) :
  Request c method path
    (Some {| Headers := Headers o; QueryParams := QueryParams o;
             FormData := FormData o; JSON := JSON o; Body := Body o;
             Timeout := t; OptAuth := OptAuth o; Cookies := Cookies o;
             AllowRedirects := redirects; Multipart := Multipart o |}) w
  = Request c method path (Some o) w.
Proof. reflexivity. Qed.

(** A body given as a reader wins over everything else: with [Body] set,
    [JSON] is not marshalled, and [FormData] and [Multipart] are not
    encoded, whatever they hold. *)
Theorem Request_Body_first (c : Client) (method path : string) (o : RequestOptions)
    (b : Reader) (json : option JSONValue) (form : gmap string string)
    (multipart : option MultipartData) (w : World) :
  Body o = Some b →
  Request c method path
    (Some {| Headers := Headers o; QueryParams := QueryParams o;
             FormData := form; JSON := json; Body := Body o;
             Timeout := Timeout o; OptAuth := OptAuth o; Cookies := Cookies o;
             AllowRedirects := AllowRedirects o; Multipart := multipart |}) w
  = Request c method path (Some o) w.
Proof.
  intros Hb. unfold Request, prepareBody, bind, field, ret; cbn.
  rewrite Hb. reflexivity.
Qed.

(** When the URL cannot be parsed, addQueryParams gives it back as it is
    and reports nothing: Request goes on as if there were no query
    parameters. *)
Theorem Request_unparsable_URL_drops_query (c : Client) (method path : string)
    (o : RequestOptions) (w : World) :
  url_Parse (buildURL c path) = None →
  Request c method path (Some o) w
  = Request c method path
      (Some {| Headers := Headers o; QueryParams := ∅;
               FormData := FormData o; JSON := JSON o; Body := Body o;
               Timeout := Timeout o; OptAuth := OptAuth o; Cookies := Cookies o;
               AllowRedirects := AllowRedirects o; Multipart := Multipart o |}) w.
Proof.
  intros Hparse. unfold Request, bind, field; cbn.
  rewrite map_size_empty. unfold addQueryParams. rewrite Hparse.
  rewrite (decide_False (P := 0 < 0)) by lia.
  by case_decide.
Qed.

(** Credentials given with the request win over those of the client:
    with [options.Auth] set, the client's own credentials are not looked
    at. *)
Theorem Request_options_Auth_wins (c : Client) (other : option Auth)
    (method path : string) (o : RequestOptions) (a : Auth) (w : World) :
  OptAuth o = Some a →
  Request {| httpClient := httpClient c; baseURL := baseURL c; headers := headers c;
             timeout := timeout c; auth := other |} method path (Some o) w
  = Request c method path (Some o) w.
Proof.
  intros Ha. unfold Request, bind, field, ret; cbn.
  rewrite Ha. reflexivity.
Qed.

(** *** buildURL *)

Fixpoint slashes (n : nat) : string :=
  match n with
  | O => EmptyString
  | S n => String "/"%char (slashes n)
  end.

Definition first_char (s : string) : option ascii :=
  match s with
  | EmptyString => None
  | String c _ => Some c
  end.

Fixpoint last_char (s : string) : option ascii :=
  match s with
  | EmptyString => None
  | String c EmptyString => Some c
  | String _ s' => last_char s'
  end.

Lemma TrimLeft_slash_cons c s :
  TrimLeft_slash (String c s)
  = if decide (c = "/"%char) then TrimLeft_slash s else String c s.
Proof.
  case_decide as Hc; [by subst|].
  destruct c as [[] [] [] [] [] [] [] []]; done.
Qed.

Lemma TrimRight_slash_cons c s :
  TrimRight_slash (String c s)
  = if decide (c = "/"%char ∧ TrimRight_slash s = EmptyString) then EmptyString
    else String c (TrimRight_slash s).
Proof.
  cbn [TrimRight_slash].
  destruct (TrimRight_slash s) as [|c' t].
  - case_decide as Hc.
    + by destruct Hc as [-> _].
    + destruct c as [[] [] [] [] [] [] [] []]; try done. by destruct Hc.
  - rewrite decide_False by (by intros [_ ?]).
    by destruct c as [[] [] [] [] [] [] [] []].
Qed.

Lemma TrimLeft_slash_spec s :
  ∃ n, s = (slashes n +:+ TrimLeft_slash s)%string
       ∧ first_char (TrimLeft_slash s) ≠ Some "/"%char.
Proof.
  induction s as [|c s (n & Hs & Hfirst)]; [by exists 0|].
  rewrite TrimLeft_slash_cons. case_decide as Hc.
  - subst c. exists (S n). split; [|done].
    change (String "/"%char s = String "/"%char (slashes n +:+ TrimLeft_slash s)).
    f_equal. exact Hs.
  - exists 0. split; [done|]. cbn. congruence.
Qed.

Lemma TrimRight_slash_spec s :
  ∃ n, s = (TrimRight_slash s +:+ slashes n)%string
       ∧ last_char (TrimRight_slash s) ≠ Some "/"%char.
Proof.
  induction s as [|c s (n & Hs & Hlast)]; [by exists 0|].
  rewrite TrimRight_slash_cons. case_decide as Hc.
  - destruct Hc as [-> Ht]. rewrite Ht in Hs.
    change (s = slashes n) in Hs.
    exists (S n). split; [|done].
    change (String "/"%char s = String "/"%char (slashes n)).
    f_equal. exact Hs.
  - exists n. split.
    { change (String c s = String c (TrimRight_slash s +:+ slashes n)).
      f_equal. exact Hs. }
    cbn. destruct (TrimRight_slash s) as [|c' t] eqn:Ht; [|exact Hlast].
    intros [= ->]. by apply Hc.
Qed.

(** With a base URL, buildURL joins base and path with exactly one slash:
    the slashes at the end of the base and at the start of the path are
    dropped, however many there are, and nothing else is changed. *)
Theorem buildURL_one_slash (c : Client) (path : string) :
  baseURL c ≠ EmptyString →
  ∃ base rest n m,
    baseURL c = (base +:+ slashes n)%string
    ∧ path = (slashes m +:+ rest)%string
    ∧ last_char base ≠ Some "/"%char
    ∧ first_char rest ≠ Some "/"%char
    ∧ buildURL c path = (base +:+ "/" +:+ rest)%string.
Proof.
  intros Hbase. unfold buildURL. rewrite decide_False by done.
  destruct (TrimRight_slash_spec (baseURL c)) as (n & Hb & Hlast).
  destruct (TrimLeft_slash_spec path) as (m & Hp & Hfirst).
  by exists (TrimRight_slash (baseURL c)), (TrimLeft_slash path), n, m.
Qed.

(** Without a base URL the path is the URL, slashes and all. *)
Lemma buildURL_no_base (c : Client) (path : string) :
  baseURL c = EmptyString → buildURL c path = path.
Proof. intros Hb. unfold buildURL. by rewrite decide_True. Qed.

(** *** NewClient and its options *)

Section options.
(** [&http.Client{Timeout: t}] and the assignment [c.httpClient.Timeout =
    t]. *)
Variable http_Client : Z → HTTPClient.
Variable set_Timeout : Z → HTTPClient → HTTPClient.

(** [type ClientOption]: a function on a Client pointer, here from the
    client before to the client after. *)
Definition ClientOption : Type := Client → Client.

(** [WithBaseURL] *)
Definition WithBaseURL (url : string) : ClientOption :=
  fun c => {| httpClient := httpClient c; baseURL := url; headers := headers c;
              timeout := timeout c; auth := auth c |}.

(** [WithTimeout] *)
Definition WithTimeout (t : Z) : ClientOption :=
  fun c => {| httpClient := set_Timeout t (httpClient c); baseURL := baseURL c;
              headers := headers c; timeout := t; auth := auth c |}.

(** [WithHeaders]: [for k, v := range headers { c.headers[k] = v }] *)
Definition WithHeaders (hs : gmap string string) : ClientOption :=
  fun c => {| httpClient := httpClient c; baseURL := baseURL c;
              headers := map_fold (fun k v m => <[k := v]> m) (headers c) hs;
              timeout := timeout c; auth := auth c |}.

(** [WithAuth] *)
Definition WithAuth (username password : string) : ClientOption :=
  fun c => {| httpClient := httpClient c; baseURL := baseURL c; headers := headers c;
              timeout := timeout c;
              auth := Some {| Username := username; Password := password |} |}.

(** [NewClient]: thirty seconds, in nanoseconds. *)
Definition NewClient (options : list ClientOption) : Client :=
  foldl (fun c option => option c)
    {| httpClient := http_Client 30000000000; baseURL := EmptyString;
       headers := ∅; timeout := 0; auth := None |}
    options.

Lemma WithHeaders_union hs c : headers (WithHeaders hs c) = hs ∪ headers c.
Proof.
  cbn. apply (map_fold_weak_ind (fun r m => r = m ∪ headers c)).
  - by rewrite (left_id_L ∅ (∪)).
  - intros k v m r Hk ->. by rewrite insert_union_l.
Qed.

(** WithHeaders adds to the headers the client has: a header it names
    gets the new value, every other header keeps the one it had, and no
    header is removed. *)
Theorem WithHeaders_merges (hs : gmap string string) (c : Client) (k : string) :
  headers (WithHeaders hs c) !! k
  = match hs !! k with
    | Some v => Some v
    | None => headers c !! k
    end.
Proof.
  rewrite WithHeaders_union, lookup_union.
  destruct (hs !! k), (headers c !! k); reflexivity.
Qed.

(** The options are applied in the order given, each to the fields it
    names only.  A client made with a base URL, a timeout and headers (as
    in TestNewClient), in any position among other options that do not
    set them again, has that base URL, that timeout, also on its HTTP
    client, and those headers; an option given later wins. *)
Theorem NewClient_options (before : list ClientOption) (url url' : string) (t : Z)
    (hs : gmap string string) (user pass : string) :
  let c0 := NewClient before in
  let c := NewClient (before ++ [WithBaseURL url'; WithBaseURL url; WithTimeout t;
                                 WithHeaders hs; WithAuth user pass]) in
  baseURL c = url
  ∧ timeout c = t
  ∧ httpClient c = set_Timeout t (httpClient c0)
  ∧ headers c = hs ∪ headers c0
  ∧ auth c = Some {| Username := user; Password := pass |}
  ∧ baseURL (NewClient []) = EmptyString
  ∧ headers (NewClient []) = ∅
  ∧ auth (NewClient []) = None
  ∧ httpClient (NewClient []) = http_Client 30000000000.
Proof.
  cbn zeta. unfold NewClient. rewrite foldl_app. cbn [foldl].
  repeat split; try reflexivity.
  apply (WithHeaders_union hs (WithTimeout t (WithBaseURL url (WithBaseURL url' _)))).
Qed.

End options.

(** *** multipart.go *)

Section multipart.
(** [os.ReadFile] in a given world, and [filepath.Base]. *)
Variable os_ReadFile : string → World → list Byte.byte + Err.
Variable filepath_Base : string → string.



(** [AddFileFromPath]: the error returned and the data afterwards. *)
Definition AddFileFromPath (fieldName filePath : string) (md : MultipartData)
    (w : World) : option Err * MultipartData :=
  match os_ReadFile filePath w with
  | inr err => (Some err, md)
  | inl content =>
      (None,
       {| Fields := Fields md;
          Files := <[fieldName := {| FilePath := filePath;
                                     Filename := filepath_Base filePath;
                                     Content := content |}]> (Files md) |})
  end.






(** A file that cannot be read changes nothing and its error is returned;
    a file that can be read is stored under the field name with its path,
    the base name of the path and its content, in place of any file that
    was there; the form fields and the other files stay. *)
Theorem AddFileFromPath_all_or_nothing (fieldName filePath : string)
    (md : MultipartData) (w : World) :
  match os_ReadFile filePath w with
  | inr err => AddFileFromPath fieldName filePath md w = (Some err, md)
  | inl content =>
      ∃ md',
        AddFileFromPath fieldName filePath md w = (None, md')
        ∧ Fields md' = Fields md
        ∧ Files md' !! fieldName
          = Some {| FilePath := filePath; Filename := filepath_Base filePath;
                    Content := content |}
        ∧ ∀ other, other ≠ fieldName → Files md' !! other = Files md !! other
  end.
Proof.
  unfold AddFileFromPath. destruct (os_ReadFile filePath w) as [content|err]; [|done].
  eexists. split; [reflexivity|]. cbn. split; [done|].
  split; [by rewrite lookup_insert_eq|].
  intros other Hne. by rewrite lookup_insert_ne.
Qed.


End multipart.

End client.

Example TrimRight_slash_base :
  TrimRight_slash "https://api.example.com//" = "https://api.example.com"%string
  ∧ TrimRight_slash "a/b" = "a/b"%string
  ∧ TrimRight_slash "///" = ""%string.
Proof. repeat split. Qed.

Example TrimLeft_slash_path :
  TrimLeft_slash "//users/7/" = "users/7/"%string
  ∧ TrimLeft_slash "users" = "users"%string.
Proof. repeat split. Qed.

End Client.

(* ===================================================================== *)
(** ** async.go: SendConcurrent and SendConcurrentWithLimit *)
(* ===================================================================== *)

Module AsyncClient.

Section fan_out.
Context `{Client.Env}.

(** [type ConcurrentRequest struct] *)
Record ConcurrentRequest := mkConcurrentRequest {
  Method : string;
  Path : string;
  Options : option Client.RequestOptions
}.

(** [type ConcurrentResponse struct]; [Index] is an index of a slice. *)
Record ConcurrentResponse := mkConcurrentResponse {
  Index : nat;
  Response : option Client.Response;
  Error : option Client.Err
}.

(** The element of [make([]ConcurrentResponse, n)]. *)
Definition zeroConcurrentResponse : ConcurrentResponse :=
  {| Index := 0; Response := None; Error := None |}.

(** What goroutine [index] stores when [ac.Request] returned [r]. *)
Definition slot (index : nat) (r : Client.Result) : ConcurrentResponse :=
  {| Index := index; Response := fst r; Error := snd r |}.

(** Where a worker goroutine is:
    - [Waiting]: before [semaphore <- struct{}{}];
    - [Running]: past the gate (or started, when there is no gate),
      before [ac.Request] has returned;
    - [Fetched r]: [ac.Request] returned [r], [results[index]] not yet
      written;
    - [Written]: [results[index]] written, deferred calls not yet run;
    - [Finished]: slot given back, [wg.Done()] called. *)
Inductive Phase :=
| Waiting
| Running
| Fetched (r : Client.Result)
| Written
| Finished.

(** The memory the goroutines share: the slice [results], the number of
    elements in the buffer of the channel [semaphore], the world
    [ac.Request] acts on; and where each goroutine is. *)
Record Pool := mkPool {
  results : list ConcurrentResponse;
  phases : list Phase;
  semaphore : Z;
  world : Client.World
}.

Definition set_phase (i : nat) (ph : Phase) (s : Pool) : Pool :=
  {| results := results s; phases := <[i := ph]> (phases s);
     semaphore := semaphore s; world := world s |}.

Variable ac : Client.Client.
Variable requests : list ConcurrentRequest.

(** One step of goroutine [i]; [None] when it cannot move: blocked on the
    full channel, or returned already.  [limit] is the capacity of the
    channel in SendConcurrentWithLimit and [None] in SendConcurrent, whose
    goroutine is the same function without the two semaphore lines.
    [ac.Request] is taken as one step.  [results[index] = ...] is always
    in range here, as [results] is as long as [requests]. *)
Definition worker_step (limit : option Z) (i : nat) (s : Pool) : option Pool :=
  match phases s !! i with
  | Some Waiting =>
      match limit with
      | Some capacity =>
          if decide (semaphore s < capacity)%Z then
            Some {| results := results s; phases := <[i := Running]> (phases s);
                    semaphore := (semaphore s + 1)%Z; world := world s |}
          else None
      | None => None
      end
  | Some Running =>
      req ← requests !! i;
      '(r, w) ← Client.Request ac (Method req) (Path req) (Options req) (world s);
      Some {| results := results s; phases := <[i := Fetched r]> (phases s);
              semaphore := semaphore s; world := w |}
  | Some (Fetched r) =>
      Some {| results := <[i := slot i r]> (results s);
              phases := <[i := match limit with
                                | Some _ => Written
                                | None => Finished
                                end]> (phases s);
              semaphore := semaphore s; world := world s |}
  | Some Written =>
      Some {| results := results s; phases := <[i := Finished]> (phases s);
              semaphore := (semaphore s - 1)%Z; world := world s |}
  | Some Finished | None => None
  end.

(** A schedule: the goroutines in the order in which they take steps. *)
Fixpoint run (limit : option Z) (sched : list nat) (s : Pool) : option Pool :=
  match sched with
  | [] => Some s
  | i :: sched => s' ← worker_step limit i s; run limit sched s'
  end.

Definition is_finished (ph : Phase) : bool :=
  match ph with Finished => true | _ => false end.

(** [wg.Wait()] returns when every goroutine has called [wg.Done()]. *)
Definition all_finished (s : Pool) : bool := forallb is_finished (phases s).

(** The state when all goroutines have been started. *)
Definition started (ph : Phase) (w : Client.World) : Pool :=
  {| results := replicate (length requests) zeroConcurrentResponse;
     phases := replicate (length requests) ph;
     semaphore := 0; world := w |}.

(** [SendConcurrent], under a schedule: the slice and the world when
    [wg.Wait()] returns; [None] if the schedule picks a goroutine that
    cannot move or stops before all have finished. *)
Definition SendConcurrent (sched : list nat) (w : Client.World)
  : option (list ConcurrentResponse * Client.World) :=
  s ← run None sched (started Running w);
  if all_finished s then Some (results s, world s) else None.

(** [SendConcurrentWithLimit], under a schedule; [make(chan struct{},
    limit)] panics if [limit] is negative. *)
Definition SendConcurrentWithLimit (limit : Z) (sched : list nat) (w : Client.World)
  : option (list ConcurrentResponse * Client.World) :=
  if decide (limit < 0)%Z then None
  else
    s ← run (Some limit) sched (started Waiting w);
    if all_finished s then Some (results s, world s) else None.


Definition weigh (f : Phase → nat) (phs : list Phase) : nat := sum_list (f <$> phs).



Arguments weigh : simpl never.

(** Steps a goroutine has still to take. *)
Definition steps_left (limit : option Z) (ph : Phase) : nat :=
  match ph, limit with
  | Waiting, _ => 4
  | Running, Some _ => 3
  | Running, None => 2
  | Fetched _, Some _ => 2
  | Fetched _, None => 1
  | Written, _ => 1
  | Finished, _ => 0
  end.

(** In the history [hist] goroutine [i] ran [ac.Request] on its own
    request, in the world as the steps before had left it, and got [r]. *)
Definition executed (limit : option Z) (init : Pool) (hist : list nat)
    (i : nat) (r : Client.Result) : Prop :=
  ∃ pre post s_i req w_i,
    hist = pre ++ i :: post
    ∧ run limit pre init = Some s_i
    ∧ phases s_i !! i = Some Running
    ∧ requests !! i = Some req
    ∧ Client.Request ac (Method req) (Path req) (Options req) (world s_i) = Some (r, w_i).

(** *** Facts about the pool *)

Lemma weigh_insert (f : Phase → nat) phs i old new :
  phs !! i = Some old →
  weigh f (<[i := new]> phs) + f old = weigh f phs + f new.
Proof.
  unfold weigh. revert i.
  induction phs as [|ph phs IH]; intros [|i] Hi; simplify_eq/=; [lia|].
  specialize (IH i Hi). lia.
Qed.

Lemma weigh_replicate (f : Phase → nat) n ph :
  weigh f (replicate n ph) = n * f ph.
Proof. unfold weigh. induction n as [|n IH]; cbn in *; lia. Qed.


Lemma weigh_pos (f : Phase → nat) phs :
  0 < weigh f phs → ∃ i ph, phs !! i = Some ph ∧ 0 < f ph.
Proof.
  unfold weigh.
  induction phs as [|ph phs IH]; cbn; intros Hw; [lia|].
  destruct (decide (0 < f ph)); [by exists 0, ph|].
  destruct IH as (i & ph' & Hi & Hf); [lia|]. by exists (S i), ph'.
Qed.


Lemma run_app limit l1 l2 s :
  run limit (l1 ++ l2) s = run limit l1 s ≫= run limit l2.
Proof.
  revert s. induction l1 as [|i l1 IH]; intros s; cbn; [done|].
  destruct (worker_step limit i s) as [s'|]; cbn; [apply IH|done].
Qed.


Lemma executed_snoc limit init hist j r i :
  executed limit init hist j r → executed limit init (hist ++ [i]) j r.
Proof.
  intros (pre & post & s_j & req & w_j & -> & Hrest).
  exists pre, (post ++ [i]), s_j, req, w_j.
  split; [by rewrite <- (assoc_L (++))|done].
Qed.

(** What the slice holds, given where each goroutine is. *)
Definition slots_ok (limit : option Z) (init : Pool) (hist : list nat) (s : Pool) : Prop :=
  length (results s) = length requests
  ∧ length (phases s) = length requests
  ∧ ∀ i,
      match phases s !! i with
      | Some (Fetched r) => executed limit init hist i r
      | Some Written | Some Finished =>
          ∃ r, executed limit init hist i r ∧ results s !! i = Some (slot i r)
      | Some Waiting | Some Running | None => True
      end.

Lemma slots_ok_started limit ph w :
  ph = Waiting ∨ ph = Running →
  slots_ok limit (started ph w) [] (started ph w).
Proof.
  intros Hph. repeat split; cbn; rewrite ?length_replicate; try done.
  intros i. destruct (replicate _ ph !! i) as [ph'|] eqn:Hi; [|done].
  apply lookup_replicate in Hi as [-> _]. by destruct Hph as [-> | ->].
Qed.

Lemma slots_ok_step limit init hist s i s' :
  run limit hist init = Some s →
  slots_ok limit init hist s →
  worker_step limit i s = Some s' →
  slots_ok limit init (hist ++ [i]) s'.
Proof.
  intros Hrun (Hres & Hph & Hslots) Hstep.
  assert (Hother : ∀ j ph (res' : list ConcurrentResponse),
    j ≠ i →
    (∀ j', j' ≠ i → res' !! j' = results s !! j') →
    match <[i := ph]> (phases s) !! j with
    | Some (Fetched r) => executed limit init (hist ++ [i]) j r
    | Some Written | Some Finished =>
        ∃ r, executed limit init (hist ++ [i]) j r ∧ res' !! j = Some (slot j r)
    | Some Waiting | Some Running | None => True
    end).
  { intros j ph res' Hne Hres'.
    rewrite list_lookup_insert_ne by done. specialize (Hslots j).
    destruct (phases s !! j) as [[| |r| |]|]; try done.
    - by apply executed_snoc.
    - destruct Hslots as (r & Hex & Hr). exists r.
      split; [by apply executed_snoc|]. by rewrite Hres'.
    - destruct Hslots as (r & Hex & Hr). exists r.
      split; [by apply executed_snoc|]. by rewrite Hres'. }
  unfold worker_step in Hstep.
  destruct (phases s !! i) as [[| |r| |]|] eqn:Hi; [| | | |done..].
  - destruct limit as [capacity|]; [|done]. case_decide; [|done]. simplify_eq.
    repeat split; cbn; rewrite ?length_insert; try done.
    intros j. destruct (decide (j = i)) as [->|Hne].
    + rewrite list_lookup_insert_eq by (by eapply lookup_lt_Some). done.
    + by apply (Hother j Running).
  - destruct (requests !! i) as [req|] eqn:Hreq; [|done]. cbn in Hstep.
    destruct (Client.Request ac _ _ _ (world s)) as [[r w]|] eqn:Hr; [|done].
    cbn in Hstep. simplify_eq.
    repeat split; cbn; rewrite ?length_insert; try done.
    intros j. destruct (decide (j = i)) as [->|Hne].
    + rewrite list_lookup_insert_eq by (by eapply lookup_lt_Some).
      exists hist, [], s, req, w. done.
    + by apply (Hother j (Fetched r)).
  - simplify_eq. specialize (Hslots i) as Hi'. rewrite Hi in Hi'.
    pose proof (lookup_lt_Some _ _ _ Hi) as Hlt.
    repeat split; cbn; rewrite ?length_insert; try done.
    intros j. destruct (decide (j = i)) as [->|Hne].
    + rewrite list_lookup_insert_eq by done.
      assert (∃ r0, executed limit init (hist ++ [i]) i r0
                    ∧ <[i := slot i r]> (results s) !! i = Some (slot i r0)) as Hgoal.
      { exists r. split; [by apply executed_snoc|].
        apply list_lookup_insert_eq. lia. }
      by destruct limit.
    + apply Hother; [done|].
      intros j' Hj'. by rewrite list_lookup_insert_ne.
  - simplify_eq. specialize (Hslots i) as Hi'. rewrite Hi in Hi'.
    repeat split; cbn; rewrite ?length_insert; try done.
    intros j. destruct (decide (j = i)) as [->|Hne].
    + rewrite list_lookup_insert_eq by (by eapply lookup_lt_Some).
      destruct Hi' as (r & Hex & Hr). exists r.
      split; [by apply executed_snoc|done].
    + by apply (Hother j Finished).
Qed.

Lemma slots_ok_run limit init :
  slots_ok limit init [] init →
  ∀ hist s, run limit hist init = Some s → slots_ok limit init hist s.
Proof.
  intros Hinit hist.
  induction hist as [|i hist IH] using rev_ind; intros s Hrun.
  - cbn in Hrun. by simplify_eq.
  - rewrite run_app in Hrun.
    destruct (run limit hist init) as [s1|] eqn:Hrun1; [|done]. cbn in Hrun.
    destruct (worker_step limit i s1) as [s2|] eqn:Hstep; [|done].
    cbn in Hrun. simplify_eq.
    eapply slots_ok_step; [exact Hrun1|by apply IH|exact Hstep].
Qed.
















(** *** More about the two fan-out functions *)

Lemma finished_slots limit ph w hist s :
  ph = Waiting ∨ ph = Running →
  run limit hist (started ph w) = Some s →
  all_finished s = true →
  length (results s) = length requests
  ∧ ∀ i req, requests !! i = Some req →
      ∃ r, executed limit (started ph w) hist i r ∧ results s !! i = Some (slot i r).
Proof.
  intros Hph Hrun Hfin.
  destruct (slots_ok_run limit (started ph w) (slots_ok_started limit ph w Hph) hist s Hrun)
    as (Hres & Hlen & Hslots).
  split; [done|]. intros i req Hreq. specialize (Hslots i).
  destruct (lookup_lt_is_Some_2 (phases s) i) as [ph' Hi].
  { apply lookup_lt_Some in Hreq. lia. }
  rewrite Hi in Hslots.
  assert (ph' = Finished) as ->; [|done].
  unfold all_finished in Hfin. rewrite forallb_forall in Hfin.
  specialize (Hfin ph'). destruct ph'; try done; discriminate Hfin;
    apply list_elem_of_In, list_elem_of_lookup; eauto.
Qed.

(** With a limit of zero no goroutine ever gets past the gate, and a
    negative limit makes [make] panic: a batch that is not empty never
    comes back, whatever the scheduler does. *)
Theorem SendConcurrentWithLimit_no_room (limit : Z) (sched : list nat) (w : Client.World) :
  (limit ≤ 0)%Z → requests ≠ [] →
  SendConcurrentWithLimit limit sched w = None.
Proof.
  intros Hlimit Hne. unfold SendConcurrentWithLimit.
  case_decide; [done|]. assert (limit = 0%Z) as -> by lia.
  destruct sched as [|i sched]; cbn [run].
  - cbn. destruct requests; [done|]. reflexivity.
  - unfold worker_step. cbn [started phases semaphore].
    destruct (replicate (length requests) Waiting !! i) as [ph|] eqn:Hi; [|done].
    apply lookup_replicate in Hi as [-> _]. reflexivity.
Qed.

(** What [ac.Request] answers to a request in a given world. *)
Definition answer (w : Client.World) (req : ConcurrentRequest) : Client.Result :=
  match Client.Request ac (Method req) (Path req) (Options req) w with
  | Some (r, _) => r
  | None => (None, None)
  end.

(** When the answer to each request does not depend on what has been
    sent before, the slice returned does not depend on the schedule, nor
    on the limit: both functions return the answers to the requests, in
    the order of the requests, each with its index. *)
Theorem fan_out_schedule_independent (w : Client.World) (limit : Z)
    (sched sched' : list nat) (res res' : list ConcurrentResponse)
    (w1 w1' : Client.World) :
  (∀ req w2, req ∈ requests → answer w2 req = answer w req) →
  SendConcurrent sched w = Some (res, w1) →
  SendConcurrentWithLimit limit sched' w = Some (res', w1') →
  res = imap (fun i req => slot i (answer w req)) requests ∧ res' = res.
Proof.
  intros Hstateless Hrun Hrun'.
  assert (Hall : ∀ lim ph hist s,
            ph = Waiting ∨ ph = Running →
            run lim hist (started ph w) = Some s → all_finished s = true →
            results s = imap (fun i req => slot i (answer w req)) requests).
  { intros lim ph hist s Hph Hr Hfin.
    destruct (finished_slots lim ph w hist s Hph Hr Hfin) as [Hlen Hslots].
    apply list_eq. intros i. rewrite list_lookup_imap.
    destruct (requests !! i) as [req|] eqn:Hreq; cbn.
    - destruct (Hslots i req Hreq) as (r & Hex & ->).
      destruct Hex as (pre & post & s_i & req' & w_i & _ & _ & _ & Hreq' & Hr').
      simplify_eq. f_equal. f_equal.
      rewrite <- (Hstateless req (world s_i)) by (by eapply list_elem_of_lookup_2).
      unfold answer. by rewrite Hr'.
    - apply lookup_ge_None. apply lookup_ge_None in Hreq. lia. }
  unfold SendConcurrent in Hrun. unfold SendConcurrentWithLimit in Hrun'.
  destruct (run None sched _) as [s|] eqn:Hs; [|done]. cbn in Hrun.
  destruct (all_finished s) eqn:Hfin; [|done]. simplify_eq.
  case_decide; [done|].
  destruct (run (Some limit) sched' _) as [s'|] eqn:Hs'; [|done]. cbn in Hrun'.
  destruct (all_finished s') eqn:Hfin'; [|done]. simplify_eq.
  rewrite (Hall None Running sched s) by auto.
  by rewrite (Hall (Some limit) Waiting sched' s') by auto.
Qed.


End fan_out.

(** *** SendAsync and WaitAll *)

Section send_async.
Context `{Client.Env}.

Local Abbreviation Promise := (Async.Promise Client.Response Client.Err).

(** What the function literal of SendAsync captures: the client, the
    three arguments and the new promise. *)
Record Goroutine := mkGoroutine {
  go_client : Client.Client;
  go_method : string;
  go_path : string;
  go_options : option Client.RequestOptions;
  go_promise : nat
}.

(** Where a goroutine of SendAsync is: before [ac.Request] has returned,
    between its return and the call of Reject or Resolve, or at its
    end. *)
Inductive GoPhase :=
| Sending
| Answered (r : Client.Result)
| Returned.

(** The promises of the program, a pointer being an index; the goroutines
    started by SendAsync; the world [ac.Request] acts on. *)
Record AsyncState := mkAsyncState {
  heap : list Promise;
  goroutines : list (Goroutine * GoPhase);
  net : Client.World
}.

Definition wait_at (q : nat) (s : AsyncState) : option Client.Result :=
  heap s !! q ≫= Async.Wait.

(** [SendAsync]: makes the promise, starts the goroutine, returns the
    promise. *)
Definition SendAsync (ac : Client.Client) (method path : string)
    (options : option Client.RequestOptions) (s : AsyncState) : nat * AsyncState :=
  let promise := length (heap s) in
  (promise,
   {| heap := heap s ++ [Async.NewPromise];
      goroutines := goroutines s
                    ++ [({| go_client := ac; go_method := method; go_path := path;
                            go_options := options; go_promise := promise |}, Sending)];
      net := net s |}).

(** [GetAsync], [PostAsync], [PutAsync], [DeleteAsync], [PatchAsync] *)
Definition GetAsync (ac : Client.Client) (path : string)
    (options : option Client.RequestOptions) := SendAsync ac "GET" path options.
Definition PostAsync (ac : Client.Client) (path : string)
    (options : option Client.RequestOptions) := SendAsync ac "POST" path options.
Definition PutAsync (ac : Client.Client) (path : string)
    (options : option Client.RequestOptions) := SendAsync ac "PUT" path options.
Definition DeleteAsync (ac : Client.Client) (path : string)
    (options : option Client.RequestOptions) := SendAsync ac "DELETE" path options.
Definition PatchAsync (ac : Client.Client) (path : string)
    (options : option Client.RequestOptions) := SendAsync ac "PATCH" path options.

(** The next step of goroutine [k]: the call of [ac.Request], then the
    call of Reject or Resolve on its promise; [None] when it has
    returned. *)
Definition go_step (k : nat) (s : AsyncState) : option AsyncState :=
  match goroutines s !! k with
  | Some (g, Sending) =>
      '(r, w) ← Client.Request (go_client g) (go_method g) (go_path g) (go_options g)
                  (net s);
      Some {| heap := heap s; goroutines := <[k := (g, Answered r)]> (goroutines s);
              net := w |}
  | Some (g, Answered r) =>
      p ← heap s !! go_promise g;
      p' ← match r with
           | (_, Some err) => Async.Reject (Some err) p
           | (resp, None) => Async.Resolve resp p
           end;
      Some {| heap := <[go_promise g := p']> (heap s);
              goroutines := <[k := (g, Returned)]> (goroutines s);
              net := net s |}
  | Some (_, Returned) | None => None
  end.

(** What a program does with the client and its promises: a call of
    SendAsync, a step of one of the goroutines, a call of Resolve or
    Reject on a promise it holds. *)
Inductive Action :=
| ActSend (ac : Client.Client) (method path : string)
    (options : option Client.RequestOptions)
| ActGo (k : nat)
| ActSettle (q : nat) (c : Async.Call Client.Response Client.Err).

Definition async_step (a : Action) (s : AsyncState) : option AsyncState :=
  match a with
  | ActSend ac method path options => Some (snd (SendAsync ac method path options s))
  | ActGo k => go_step k s
  | ActSettle q c =>
      p ← heap s !! q;
      p' ← Async.call c p;
      Some {| heap := <[q := p']> (heap s); goroutines := goroutines s; net := net s |}
  end.

Fixpoint async_run (acts : list Action) (s : AsyncState) : option AsyncState :=
  match acts with
  | [] => Some s
  | a :: acts => s' ← async_step a s; async_run acts s'
  end.

(** The promise of a goroutine is one of the heap. *)
Definition wf (s : AsyncState) : Prop :=
  ∀ k g ph, goroutines s !! k = Some (g, ph) → go_promise g < length (heap s).

(** An action that is neither a step of goroutine [k] nor a call of
    Resolve or Reject on [promise]. *)
Definition respects (promise k : nat) (a : Action) : Prop :=
  match a with
  | ActSend _ _ _ _ => True
  | ActGo k' => k' ≠ k
  | ActSettle q _ => q ≠ promise
  end.

(** Goroutine [k] is [g] in phase [ph], its promise is as NewPromise made
    it, and no other goroutine has this promise. *)
Definition started_for (promise k : nat) (g : Goroutine) (ph : GoPhase)
    (s : AsyncState) : Prop :=
  goroutines s !! k = Some (g, ph)
  ∧ heap s !! promise = Some Async.NewPromise
  ∧ ∀ k' g' ph', k' ≠ k → goroutines s !! k' = Some (g', ph') → go_promise g' ≠ promise.

Lemma started_for_step promise k g ph a s s' :
  respects promise k a → started_for promise k g ph s → async_step a s = Some s' →
  started_for promise k g ph s'.
Proof.
  intros Ha (Hk & Hp & Hothers) Hstep.
  pose proof (lookup_lt_Some _ _ _ Hk) as Hklt.
  pose proof (lookup_lt_Some _ _ _ Hp) as Hplt.
  destruct a as [ac method path options|k'|q c]; cbn in Ha, Hstep.
  - simplify_eq. repeat split; cbn.
    + by rewrite lookup_app_l.
    + by rewrite lookup_app_l.
    + intros k' g' ph' Hne Hk'.
      apply lookup_app_Some in Hk' as [Hk'|[Hge Hk']]; [by eapply Hothers|].
      apply list_lookup_singleton_Some in Hk' as [_ Hk']. simplify_eq. cbn. lia.
  - unfold go_step in Hstep.
    destruct (goroutines s !! k') as [[g' [|r|]]|] eqn:Hk'; [| |done..].
    + destruct (Client.Request _ _ _ _ _) as [[r w]|]; [|done].
      cbn in Hstep. simplify_eq. repeat split; cbn.
      * by rewrite list_lookup_insert_ne.
      * done.
      * intros k'' g'' ph'' Hne Hk''.
        destruct (decide (k'' = k')) as [->|Hne'].
        -- rewrite list_lookup_insert_eq in Hk'' by (by eapply lookup_lt_Some).
           simplify_eq. by eapply Hothers.
        -- rewrite list_lookup_insert_ne in Hk'' by done. by eapply Hothers.
    + pose proof (Hothers k' g' _ Ha Hk') as Hpromise.
      destruct (heap s !! go_promise g') as [p|]; [|done]. cbn in Hstep.
      destruct (match r with (_, Some err) => _ | (resp, None) => _ end) as [p'|];
        [|done].
      cbn in Hstep. simplify_eq. repeat split; cbn.
      * by rewrite list_lookup_insert_ne.
      * by rewrite list_lookup_insert_ne.
      * intros k'' g'' ph'' Hne Hk''.
        destruct (decide (k'' = k')) as [->|Hne'].
        -- rewrite list_lookup_insert_eq in Hk'' by (by eapply lookup_lt_Some).
           by simplify_eq.
        -- rewrite list_lookup_insert_ne in Hk'' by done. by eapply Hothers.
  - destruct (heap s !! q) as [p|]; [|done]. cbn in Hstep.
    destruct (Async.call c p) as [p'|]; [|done]. cbn in Hstep. simplify_eq.
    repeat split; cbn; [done|by rewrite list_lookup_insert_ne|done].
Qed.

Lemma started_for_run promise k g ph acts :
  ∀ s s', Forall (respects promise k) acts → started_for promise k g ph s →
          async_run acts s = Some s' → started_for promise k g ph s'.
Proof.
  induction acts as [|a acts IH]; intros s s' Hacts Hs Hrun; cbn in Hrun.
  - by simplify_eq.
  - apply Forall_cons in Hacts as [Ha Hacts].
    destruct (async_step a s) as [s1|] eqn:Hstep; [|done]. cbn in Hrun.
    eapply IH; [exact Hacts| |exact Hrun]. by eapply started_for_step.
Qed.

Lemma started_for_pending promise k g ph s :
  started_for promise k g ph s → wait_at promise s = None.
Proof. intros (_ & Hp & _). unfold wait_at. by rewrite Hp. Qed.

(** SendAsync returns a pending promise and has sent nothing.  Whatever
    the program does next (other calls of SendAsync, steps of other
    goroutines, calls of Resolve and Reject on other promises), the
    promise stays pending until the goroutine SendAsync started has run:
    its first step is the call of [ac.Request] with the client, method,
    path and options SendAsync was given, and its second step settles the
    promise, so that [Wait] returns exactly the response or the error
    this call returned; then the goroutine is at its end. *)
Theorem SendAsync_settles_with_Request (ac : Client.Client) (method path : string)
    (options : option Client.RequestOptions) (s s1 s2 : AsyncState) (promise : nat)
    (acts : list Action) :
  wf s →
  SendAsync ac method path options s = (promise, s1) →
  Forall (respects promise (length (goroutines s))) acts →
  async_run acts s1 = Some s2 →
  let k := length (goroutines s) in
  wait_at promise s1 = None
  ∧ net s1 = net s
  ∧ wait_at promise s2 = None
  ∧ ∃ r s3,
      Client.Request ac method path options (net s2) = Some (r, net s3)
      ∧ async_step (ActGo k) s2 = Some s3
      ∧ ∀ acts' s4,
          Forall (respects promise k) acts' →
          async_run acts' s3 = Some s4 →
          wait_at promise s4 = None
          ∧ ∃ s5,
              async_step (ActGo k) s4 = Some s5
              ∧ wait_at promise s5 = Some r
              ∧ net s5 = net s4
              ∧ async_step (ActGo k) s5 = None.
Proof.
  intros Hwf Hsend Hacts Hrun k. subst k. unfold SendAsync in Hsend. simplify_eq.
  set (k := length (goroutines s)) in *.
  set (promise := length (heap s)) in *.
  set (g := {| go_client := ac; go_method := method; go_path := path;
               go_options := options; go_promise := promise |}) in *.
  set (s1 := {| heap := heap s ++ [Async.NewPromise];
                goroutines := goroutines s ++ [(g, Sending)]; net := net s |}) in *.
  assert (Hs1 : started_for promise k g Sending s1).
  { repeat split; cbn.
    - apply list_lookup_middle. done.
    - apply list_lookup_middle. done.
    - intros k' g' ph' Hne Hk'.
      apply lookup_app_Some in Hk' as [Hk'|[Hge Hk']].
      + apply Hwf in Hk'. unfold promise. lia.
      + apply list_lookup_singleton_Some in Hk' as [Hk' _]. subst k. lia. }
  split; [by eapply started_for_pending|]. split; [done|].
  pose proof (started_for_run _ _ _ _ acts s1 s2 Hacts Hs1 Hrun) as Hs2.
  split; [by eapply started_for_pending|].
  destruct (Client.Request_returns ac method path options (net s2)) as [[r w] Hr].
  pose proof (Client.Request_result_shape _ _ _ _ _ _ _ Hr) as Hshape.
  destruct Hs2 as (Hk2 & Hp2 & Hothers2).
  pose proof (lookup_lt_Some _ _ _ Hk2) as Hklt.
  set (s3 := {| heap := heap s2; goroutines := <[k := (g, Answered r)]> (goroutines s2);
                net := w |}).
  exists r, s3. split; [exact Hr|].
  split.
  { cbn. unfold go_step. rewrite Hk2. cbn. by rewrite Hr. }
  intros acts' s4 Hacts' Hrun'.
  assert (Hs3 : started_for promise k g (Answered r) s3).
  { repeat split; cbn.
    - by apply list_lookup_insert_eq.
    - done.
    - intros k' g' ph' Hne Hk'. rewrite list_lookup_insert_ne in Hk' by done.
      by eapply Hothers2. }
  pose proof (started_for_run _ _ _ _ acts' s3 s4 Hacts' Hs3 Hrun') as Hs4.
  split; [by eapply started_for_pending|].
  destruct Hs4 as (Hk4 & Hp4 & _).
  pose proof (lookup_lt_Some _ _ _ Hk4) as Hklt4.
  pose proof (lookup_lt_Some _ _ _ Hp4) as Hplt4.
  cbn. unfold go_step, wait_at. rewrite Hk4. cbn. rewrite Hp4. cbn.
  destruct Hshape as [[resp ->]|[err ->]]; cbn;
    (eexists; split; [reflexivity|]; cbn;
     rewrite !list_lookup_insert_eq by done; cbn; done).
Qed.

End send_async.

Section wait_all.
Context `{Client.Env}.

Local Abbreviation Promise := (Async.Promise Client.Response Client.Err).

(** The argument of WaitAll: pointers to promises. *)
Variable promises : list nat.

(** The slice [results], where each goroutine of WaitAll is ([Running]
    until [p.Wait()] has returned, then [Fetched], then [Finished]), and
    the promises of the program. *)
Record WaitState := mkWaitState {
  wresults : list ConcurrentResponse;
  wphases : list Phase;
  wheap : list Promise
}.

(** A step of a goroutine of WaitAll, or a call of Resolve or Reject by
    the rest of the program. *)
Inductive WaitAct :=
| Waiter (i : nat)
| Settle (q : nat) (c : Async.Call Client.Response Client.Err).

Definition wait_step (act : WaitAct) (s : WaitState) : option WaitState :=
  match act with
  | Settle q c =>
      p ← wheap s !! q;
      p' ← Async.call c p;
      Some {| wresults := wresults s; wphases := wphases s;
              wheap := <[q := p']> (wheap s) |}
  | Waiter i =>
      match wphases s !! i with
      | Some Running =>
          q ← promises !! i;
          p ← wheap s !! q;
          r ← Async.Wait p;
          Some {| wresults := wresults s; wphases := <[i := Fetched r]> (wphases s);
                  wheap := wheap s |}
      | Some (Fetched r) =>
          Some {| wresults := <[i := slot i r]> (wresults s);
                  wphases := <[i := Finished]> (wphases s);
                  wheap := wheap s |}
      | _ => None
      end
  end.

Fixpoint wait_run (acts : list WaitAct) (s : WaitState) : option WaitState :=
  match acts with
  | [] => Some s
  | act :: acts => s' ← wait_step act s; wait_run acts s'
  end.

(** The state when the goroutines of WaitAll have been started. *)
Definition wait_started (h : list Promise) : WaitState :=
  {| wresults := replicate (length promises) zeroConcurrentResponse;
     wphases := replicate (length promises) Running;
     wheap := h |}.

(** [WaitAll], under a schedule: the slice and the promises when
    [wg.Wait()] returns. *)
Definition WaitAll (acts : list WaitAct) (h : list Promise)
  : option (list ConcurrentResponse * list Promise) :=
  s ← wait_run acts (wait_started h);
  if forallb is_finished (wphases s) then Some (wresults s, wheap s) else None.

Definition settled_to (q : nat) (h : list Promise) : option Client.Result :=
  h !! q ≫= Async.Wait.

(** The steps of the goroutines of WaitAll in a schedule. *)
Definition is_waiter (act : WaitAct) : bool :=
  match act with Waiter _ => true | Settle _ _ => false end.

Definition waiter_steps (acts : list WaitAct) : nat :=
  sum_list ((fun act => if is_waiter act then 1 else 0) <$> acts).

Definition waiters_ok (s : WaitState) : Prop :=
  length (wresults s) = length promises
  ∧ length (wphases s) = length promises
  ∧ Forall Async.guarded (wheap s)
  ∧ ∀ i,
      match wphases s !! i with
      | Some (Fetched r) =>
          ∃ q, promises !! i = Some q ∧ settled_to q (wheap s) = Some r
      | Some Finished =>
          ∃ q r, promises !! i = Some q ∧ settled_to q (wheap s) = Some r
                 ∧ wresults s !! i = Some (slot i r)
      | Some Waiting | Some Written => False
      | Some Running | None => True
      end.

Lemma settled_to_call q0 q c p p' (h : list Promise) r :
  Forall Async.guarded h →
  h !! q = Some p → Async.call c p = Some p' →
  settled_to q0 h = Some r → settled_to q0 (<[q := p']> h) = Some r.
Proof.
  intros Hg Hq Hc Hr. unfold settled_to in *.
  destruct (decide (q0 = q)) as [->|Hne]; [|by rewrite list_lookup_insert_ne].
  rewrite Hq in Hr. cbn in Hr.
  rewrite list_lookup_insert_eq by (by eapply lookup_lt_Some). cbn.
  assert (Async.done p = true) as Hd by (unfold Async.Wait in Hr; by destruct (Async.done p)).
  rewrite Async.call_settled in Hc; [by simplify_eq|by eapply Forall_lookup_1|done].
Qed.

Lemma waiters_ok_started (h : list Promise) :
  Forall Async.guarded h → waiters_ok (wait_started h).
Proof.
  intros Hg. repeat split; cbn; rewrite ?length_replicate; try done.
  intros i. destruct (replicate _ Running !! i) as [ph|] eqn:Hi; [|done].
  by apply lookup_replicate in Hi as [-> _].
Qed.

Lemma waiters_ok_step act s s' :
  waiters_ok s → wait_step act s = Some s' → waiters_ok s'.
Proof.
  intros (Hres & Hph & Hg & Hall) Hstep.
  destruct act as [i|q c]; cbn in Hstep.
  - destruct (wphases s !! i) as [[| |r| |]|] eqn:Hi; try done.
    + destruct (promises !! i) as [q|] eqn:Hq; [|done]. cbn in Hstep.
      destruct (wheap s !! q) as [p|] eqn:Hp; [|done]. cbn in Hstep.
      destruct (Async.Wait p) as [r|] eqn:Hr; [|done]. cbn in Hstep. simplify_eq.
      repeat split; cbn; rewrite ?length_insert; try done.
      intros j. destruct (decide (j = i)) as [->|Hne].
      * rewrite list_lookup_insert_eq by (by eapply lookup_lt_Some).
        exists q. split; [done|]. unfold settled_to. by rewrite Hp.
      * rewrite list_lookup_insert_ne by done. apply Hall.
    + simplify_eq. pose proof (Hall i) as Hi'. rewrite Hi in Hi'.
      destruct Hi' as (q & Hq & Hr).
      repeat split; cbn; rewrite ?length_insert; try done.
      intros j. destruct (decide (j = i)) as [->|Hne].
      * rewrite list_lookup_insert_eq by (by eapply lookup_lt_Some).
        exists q, r. repeat split; try done.
        apply list_lookup_insert_eq. apply lookup_lt_Some in Hi. lia.
      * rewrite !list_lookup_insert_ne by done. apply Hall.
  - destruct (wheap s !! q) as [p|] eqn:Hq; [|done]. cbn in Hstep.
    destruct (Async.call_guarded c p) as (p' & Hc & Hg' & _).
    { by eapply Forall_lookup_1. }
    rewrite Hc in Hstep. cbn in Hstep. simplify_eq.
    repeat split; cbn; try done; [by apply Forall_insert|].
    intros j. specialize (Hall j).
    destruct (wphases s !! j) as [[| |r| |]|]; try done.
    + destruct Hall as (q0 & Hq0 & Hr). exists q0. split; [done|].
      by eapply settled_to_call.
    + destruct Hall as (q0 & r & Hq0 & Hr & Hslot). exists q0, r.
      repeat split; try done. by eapply settled_to_call.
Qed.

Lemma waiters_ok_run acts :
  ∀ s s', waiters_ok s → wait_run acts s = Some s' → waiters_ok s'.
Proof.
  induction acts as [|act acts IH]; intros s s' Hok Hrun; cbn in Hrun.
  - by simplify_eq.
  - destruct (wait_step act s) as [s1|] eqn:Hstep; [|done]. cbn in Hrun.
    eapply IH; [|exact Hrun]. by eapply waiters_ok_step.
Qed.

Lemma finished_lookup (phs : list Phase) i ph :
  forallb is_finished phs = true → phs !! i = Some ph → ph = Finished.
Proof.
  intros Hfin Hi. rewrite forallb_forall in Hfin. specialize (Hfin ph).
  destruct ph; try done; discriminate Hfin;
    apply list_elem_of_In, list_elem_of_lookup; eauto.
Qed.

(** When WaitAll returns, every promise it was given is settled, and the
    slice has one element for each, in the order of the arguments:
    element [i] has [Index] [i], and its [Response] and [Error] are the
    response and the error promise [i] is settled to.  It does not matter
    in which order the promises were settled, nor what else was called on
    them meanwhile. *)
Theorem WaitAll_results (acts : list WaitAct) (h h' : list Promise)
    (res : list ConcurrentResponse) :
  Forall Async.guarded h →
  WaitAll acts h = Some (res, h') →
  length res = length promises
  ∧ ∀ i q, promises !! i = Some q →
      ∃ resp err,
        settled_to q h' = Some (resp, err)
        ∧ res !! i = Some {| Index := i; Response := resp; Error := err |}.
Proof.
  intros Hg Hrun. unfold WaitAll in Hrun.
  destruct (wait_run acts _) as [s|] eqn:Hs; [|done]. cbn in Hrun.
  destruct (forallb is_finished (wphases s)) eqn:Hfin; [|done]. simplify_eq.
  eapply waiters_ok_run in Hs; [|by apply waiters_ok_started].
  destruct Hs as (Hres & Hph & _ & Hall).
  split; [done|]. intros i q Hq. specialize (Hall i).
  destruct (lookup_lt_is_Some_2 (wphases s) i) as [ph Hi].
  { apply lookup_lt_Some in Hq. lia. }
  rewrite Hi in Hall.
  assert (ph = Finished) as -> by (by eapply finished_lookup).
  destruct Hall as (q' & [resp err] & Hq' & Hr & Hslot). simplify_eq.
  exists resp, err. split; [exact Hr|exact Hslot].
Qed.

(** *** WaitAll returns *)

Lemma wait_run_app acts1 acts2 s :
  wait_run (acts1 ++ acts2) s = wait_run acts1 s ≫= wait_run acts2.
Proof.
  revert s. induction acts1 as [|act acts1 IH]; intros s; cbn; [done|].
  destruct (wait_step act s) as [s1|]; cbn; [apply IH|done].
Qed.

Lemma waiter_steps_app acts1 acts2 :
  waiter_steps (acts1 ++ acts2) = waiter_steps acts1 + waiter_steps acts2.
Proof.
  unfold waiter_steps. induction acts1 as [|act acts1 IH]; cbn in *; lia.
Qed.

Lemma finished_weigh (phs : list Phase) :
  forallb is_finished phs = true ↔ weigh (steps_left None) phs = 0.
Proof.
  unfold weigh. induction phs as [|ph phs IH]; cbn; [done|].
  rewrite andb_true_iff, IH. destruct ph; cbn; split; intros; try lia;
    try (split; [done|lia]); by destruct_and?.
Qed.

(** Each step of a goroutine of WaitAll is one of the two it has. *)
Lemma waiter_steps_step act s s' :
  waiters_ok s → wait_step act s = Some s' →
  weigh (steps_left None) (wphases s') + (if is_waiter act then 1 else 0)
  = weigh (steps_left None) (wphases s).
Proof.
  intros (_ & _ & _ & Hall) Hstep. destruct act as [i|q c]; cbn in Hstep.
  - destruct (wphases s !! i) as [[| |r| |]|] eqn:Hi; try done.
    + destruct (promises !! i) as [q|]; [|done]. cbn in Hstep.
      destruct (wheap s !! q) as [p|]; [|done]. cbn in Hstep.
      destruct (Async.Wait p) as [r|]; [|done]. cbn in Hstep. simplify_eq.
      pose proof (weigh_insert (steps_left None) _ _ _ (Fetched r) Hi) as Hw.
      change (steps_left None Running) with 2 in Hw.
      change (steps_left None (Fetched r)) with 1 in Hw.
      cbn [wphases is_waiter]. lia.
    + simplify_eq.
      pose proof (weigh_insert (steps_left None) _ _ _ Finished Hi) as Hw.
      change (steps_left None (Fetched r)) with 1 in Hw.
      change (steps_left None Finished) with 0 in Hw.
      cbn [wphases is_waiter]. lia.
  - destruct (wheap s !! q) as [p|]; [|done]. cbn in Hstep.
    destruct (Async.call c p) as [p'|]; [|done]. cbn in Hstep. simplify_eq.
    cbn [wphases is_waiter]. lia.
Qed.

Lemma waiter_steps_run acts :
  ∀ s s', waiters_ok s → wait_run acts s = Some s' →
          weigh (steps_left None) (wphases s') + waiter_steps acts
          = weigh (steps_left None) (wphases s).
Proof.
  induction acts as [|act acts IH]; intros s s' Hok Hrun; cbn in Hrun.
  - simplify_eq. unfold waiter_steps. cbn. lia.
  - destruct (wait_step act s) as [s1|] eqn:Hstep; [|done]. cbn in Hrun.
    pose proof (waiter_steps_step _ _ _ Hok Hstep) as Hone.
    pose proof (IH s1 s' (waiters_ok_step _ _ _ Hok Hstep) Hrun) as Hrest.
    unfold waiter_steps in *. cbn. lia.
Qed.

(** A goroutine of WaitAll that has not finished can move exactly when
    its promise is settled. *)
Lemma waiter_can_move i q s :
  waiters_ok s → promises !! i = Some q → wphases s !! i ≠ Some Finished →
  is_Some (settled_to q (wheap s)) ↔ is_Some (wait_step (Waiter i) s).
Proof.
  intros (_ & Hph & _ & Hall) Hq Hnf. specialize (Hall i).
  destruct (lookup_lt_is_Some_2 (wphases s) i) as [ph Hi].
  { apply lookup_lt_Some in Hq. lia. }
  cbn. rewrite Hi in *. destruct ph as [| |r| |]; try done.
  - rewrite Hq. cbn. unfold settled_to.
    destruct (wheap s !! q) as [p|]; cbn; [|split; by intros [? ?]].
    destruct (Async.Wait p) as [r|]; cbn; split; intros [? ?]; by eauto.
  - destruct Hall as (q' & Hq' & Hr). simplify_eq. rewrite Hr.
    split; intros _; by eexists.
Qed.

Lemma settled_to_step act s s' q r :
  waiters_ok s → wait_step act s = Some s' →
  settled_to q (wheap s) = Some r → settled_to q (wheap s') = Some r.
Proof.
  intros (_ & _ & Hg & _) Hstep Hr. destruct act as [i|q' c]; cbn in Hstep.
  - destruct (wphases s !! i) as [[| |r'| |]|]; try done.
    + destruct (promises !! i) as [q'|]; [|done]. cbn in Hstep.
      destruct (wheap s !! q') as [p|]; [|done]. cbn in Hstep.
      destruct (Async.Wait p) as [r'|]; [|done]. cbn in Hstep. by simplify_eq.
    + by simplify_eq.
  - destruct (wheap s !! q') as [p|] eqn:Hq'; [|done]. cbn in Hstep.
    destruct (Async.call c p) as [p'|] eqn:Hc; [|done]. cbn in Hstep. simplify_eq.
    cbn. by eapply settled_to_call.
Qed.

Lemma settled_to_run acts :
  ∀ s s' q r, waiters_ok s → wait_run acts s = Some s' →
              settled_to q (wheap s) = Some r → settled_to q (wheap s') = Some r.
Proof.
  induction acts as [|act acts IH]; intros s s' q r Hok Hrun Hr; cbn in Hrun.
  - by simplify_eq.
  - destruct (wait_step act s) as [s1|] eqn:Hstep; [|done]. cbn in Hrun.
    eapply IH; [by eapply waiters_ok_step|exact Hrun|]. by eapply settled_to_step.
Qed.

(** With every promise settled, the goroutines that are left can be run
    to their end, in some order, and the promises stay as they are. *)
Lemma waiters_complete :
  ∀ n s, waiters_ok s →
         weigh (steps_left None) (wphases s) = n →
         Forall (fun q => is_Some (settled_to q (wheap s))) promises →
         ∃ rest s', wait_run rest s = Some s'
                    ∧ forallb is_finished (wphases s') = true
                    ∧ wheap s' = wheap s.
Proof.
  induction n as [|n IH]; intros s Hok Hn Hsettled.
  - exists [], s. split; [done|]. split; [by apply finished_weigh|done].
  - destruct (weigh_pos (steps_left None) (wphases s)) as (i & ph & Hi & Hpos); [lia|].
    pose proof Hok as (_ & Hph & _ & _).
    destruct (lookup_lt_is_Some_2 promises i) as [q Hq].
    { apply lookup_lt_Some in Hi. lia. }
    destruct (proj1 (waiter_can_move i q s Hok Hq
                       ltac:(rewrite Hi; intros ?; simplify_eq; cbn in Hpos; lia)))
      as [s1 Hstep].
    { rewrite Forall_forall in Hsettled. apply Hsettled.
      apply list_elem_of_lookup. eauto. }
    pose proof (waiter_steps_step _ _ _ Hok Hstep) as Hone. cbn in Hone.
    assert (Hheap : wheap s1 = wheap s).
    { cbn in Hstep. rewrite Hi in Hstep. destruct ph as [| |r| |]; try done.
      - rewrite Hq in Hstep. cbn in Hstep.
        destruct (wheap s !! q) as [p|]; [|done]. cbn in Hstep.
        destruct (Async.Wait p) as [r|]; [|done]. cbn in Hstep. by simplify_eq.
      - by simplify_eq. }
    destruct (IH s1) as (rest & s' & Hrun & Hfin & Hh).
    + by eapply waiters_ok_step.
    + lia.
    + by rewrite Hheap.
    + exists (Waiter i :: rest), s'. cbn [wait_run]. rewrite Hstep. cbn.
      split; [exact Hrun|]. split; [exact Hfin|]. by rewrite Hh.
Qed.

(** WaitAll returns once its promises are settled, whatever the order in
    which its goroutines run.  At any point [s] of any execution [acts]
    (steps of the goroutines of WaitAll and calls of Resolve and Reject
    by the rest of the program, in any order):
    - a goroutine that has not finished can take its next step exactly
      when its promise is settled, whatever the other goroutines do;
    - a promise that is settled stays settled, with the same response
      and error, in every continuation;
    - when all promises are settled, the execution can be carried on
      until all goroutines have finished, and WaitAll then returns,
      with the promises as they are;
    - all goroutines have finished exactly when they have taken
      [2 * N] steps: no goroutine can go on for ever. *)
Theorem WaitAll_returns (acts : list WaitAct) (h : list Promise) (s : WaitState) :
  Forall Async.guarded h →
  wait_run acts (wait_started h) = Some s →
  (∀ i q, promises !! i = Some q → wphases s !! i ≠ Some Finished →
          is_Some (settled_to q (wheap s)) ↔ is_Some (wait_step (Waiter i) s))
  ∧ (∀ q r acts' s', settled_to q (wheap s) = Some r → wait_run acts' s = Some s' →
                     settled_to q (wheap s') = Some r)
  ∧ (Forall (fun q => is_Some (settled_to q (wheap s))) promises →
     ∃ rest res, WaitAll (acts ++ rest) h = Some (res, wheap s))
  ∧ (forallb is_finished (wphases s) = true
     ↔ waiter_steps acts = 2 * length promises).
Proof.
  intros Hg Hrun.
  pose proof (waiters_ok_run _ _ _ (waiters_ok_started h Hg) Hrun) as Hok.
  pose proof (waiter_steps_run _ _ _ (waiters_ok_started h Hg) Hrun) as Hsteps.
  cbn [wait_started wphases] in Hsteps. rewrite weigh_replicate in Hsteps.
  change (steps_left None Running) with 2 in Hsteps.
  split; [intros i q Hq Hnf; by apply waiter_can_move|].
  split; [intros q r acts' s' Hr Hrun'; by eapply settled_to_run|].
  split.
  - intros Hsettled.
    destruct (waiters_complete _ s Hok eq_refl Hsettled) as (rest & s' & Hrun' & Hfin & Hh).
    exists rest, (wresults s'). unfold WaitAll.
    rewrite wait_run_app, Hrun. cbn. rewrite Hrun'. cbn. by rewrite Hfin, Hh.
  - rewrite finished_weigh. lia.
Qed.

(** While one of its promises is pending, the goroutine waiting for it
    cannot move. *)
Lemma WaitAll_waits (i q : nat) (s : WaitState) :
  wphases s !! i = Some Running → promises !! i = Some q →
  settled_to q (wheap s) = None → wait_step (Waiter i) s = None.
Proof.
  intros Hi Hq Hpending. cbn. rewrite Hi, Hq. cbn.
  unfold settled_to in Hpending.
  destruct (wheap s !! q) as [p|]; [|done]. cbn in *. by rewrite Hpending.
Qed.

End wait_all.

(** *** A run on a small network *)

(** A network that answers every request with the URL asked for, except
    ["/fail"], which it refuses; the world is the list of the URLs it
    was asked for, in the order in which it was asked. *)
Definition toy_env : Client.Env :=
  {| Client.Reader := string;
     Client.Cookie := unit;
     Client.JSONValue := string;
     Client.URL := string;
     Client.HTTPClient := unit;
     Client.HTTPRequest := string;
     Client.HTTPResponse := string;
     Client.Err := string;
     Client.World := list string;
     Client.url_Parse := fun u => Some u;
     Client.url_with_query := fun u _ => u;
     Client.url_Values_Encode := fun _ => ""%string;
     Client.json_Marshal := fun _ => inl [];
     Client.bytes_NewBuffer := fun _ => ""%string;
     Client.strings_NewReader := fun r => r;
     Client.multipart_write := fun _ => inr "unsupported"%string;
     Client.http_NewRequest := fun _ u _ => inl u;
     Client.Header_Set := fun _ _ req => req;
     Client.SetBasicAuth := fun _ _ req => req;
     Client.AddCookie := fun _ req => req;
     Client.httpClient_Do := fun _ req w =>
       (if decide (req = "/fail"%string) then inr "refused"%string else inl req,
        w ++ [req]);
     Client.io_ReadAll_Close := fun _ w => (inl [], w) |}.

Definition toy_client : @Client.Client toy_env :=
  @Client.mkClient toy_env tt ""%string ∅ 0%Z None.

Definition three_requests : list (@ConcurrentRequest toy_env) :=
  [ @mkConcurrentRequest toy_env "GET" "/a" None;
    @mkConcurrentRequest toy_env "GET" "/fail" (Some Client.zeroRequestOptions);
    @mkConcurrentRequest toy_env "GET" "/c" None ].

Definition answered (index : nat) (url : string) : @ConcurrentResponse toy_env :=
  @mkConcurrentResponse toy_env index
    (Some (@Client.mkResponse toy_env url [])) None.

Definition refused (index : nat) : @ConcurrentResponse toy_env :=
  @mkConcurrentResponse toy_env index None (Some "refused"%string).

(** The requests are served in the order 2, 1, 0 and the slots are written
    in the order 0, 2, 1: the slice is in the order of the requests, and
    the refusal of request 1 leaves the other two slots alone. *)
Example SendConcurrent_reverse_completion :
  SendConcurrent toy_client three_requests [2; 1; 0; 0; 2; 1] []
  = Some ([answered 0 "/a"; refused 1; answered 2 "/c"], ["/c"; "/fail"; "/a"]%string).
Proof. vm_compute. reflexivity. Qed.

(** With two slots the third goroutine cannot pass the gate while the
    first two hold them. *)
Example SendConcurrentWithLimit_third_waits :
  run toy_client three_requests (Some 2%Z) [0; 1; 2] (started three_requests Waiting [])
  = None.
Proof. vm_compute. reflexivity. Qed.

Example SendConcurrentWithLimit_two_slots :
  SendConcurrentWithLimit toy_client three_requests 2
    [1; 0; 1; 1; 1; 2; 2; 0; 0; 2; 0; 2] []
  = Some ([answered 0 "/a"; refused 1; answered 2 "/c"], ["/fail"; "/c"; "/a"]%string).
Proof. vm_compute. reflexivity. Qed.

(** A channel without buffer lets nobody in. *)
Example SendConcurrentWithLimit_zero_blocks :
  run toy_client three_requests (Some 0%Z) [0] (started three_requests Waiting []) = None
  ∧ run toy_client three_requests (Some 0%Z) [1] (started three_requests Waiting []) = None
  ∧ run toy_client three_requests (Some 0%Z) [2] (started three_requests Waiting []) = None.
Proof. vm_compute. auto. Qed.







(** *** The same network, for the client and the promises *)

Definition upload_options : @Client.RequestOptions toy_env :=
  @Client.mkRequestOptions toy_env ∅ ∅ ∅ None None 0%Z None []
    false (Some {| Client.Fields := ∅; Client.Files := ∅ |}).

Definition reader_options : @Client.RequestOptions toy_env :=
  @Client.mkRequestOptions toy_env ∅ ∅ ∅ None (Some "payload"%string) 0%Z None []
    false None.

Definition slashed_client : @Client.Client toy_env :=
  @Client.mkClient toy_env tt "http://host//"%string ∅ 0%Z None.

Definition no_promises : @AsyncState toy_env := @mkAsyncState toy_env [] [] [].

Definition resolved_a : Async.Promise (@Client.Response toy_env) string :=
  {| Async.response := Some (@Client.mkResponse toy_env "/a" []);
     Async.err := None; Async.done := true; Async.once := true |}.

Definition rejected_b : Async.Promise (@Client.Response toy_env) string :=
  {| Async.response := None; Async.err := Some "refused"%string;
     Async.done := true; Async.once := true |}.

(** Promise 1 is rejected, then promise 0 resolved, then promise 1
    resolved once more; the waiters move in between. *)
Definition settle_and_wait : list (@WaitAct toy_env) :=
  [ @Settle toy_env 1 (Async.CallReject (Some "refused"%string));
    @Waiter toy_env 0;
    @Settle toy_env 0 (Async.CallResolve (Some (@Client.mkResponse toy_env "/a" [])));
    @Settle toy_env 1 (Async.CallResolve None);
    @Waiter toy_env 1; @Waiter toy_env 1; @Waiter toy_env 0 ].

(** The first four of these steps: both promises are settled, the first
    goroutine has read its promise, the second has not moved. *)
Definition settled_first : list (@WaitAct toy_env) := take 4 settle_and_wait.

Definition half_waited : @WaitState toy_env :=
  @mkWaitState toy_env
    (replicate 2 (@zeroConcurrentResponse toy_env))
    [@Fetched toy_env (None, Some "refused"%string); @Running toy_env]
    [resolved_a; rejected_b].

(** A request for ["/a"] is sent; meanwhile a request for ["/fail"] is
    sent and its goroutine runs to its end. *)
Definition go_a : @Goroutine toy_env :=
  @mkGoroutine toy_env toy_client "GET" "/a" None 0.

Definition go_fail : @Goroutine toy_env :=
  @mkGoroutine toy_env toy_client "GET" "/fail" None 1.

Definition sent_a : @AsyncState toy_env :=
  @mkAsyncState toy_env [Async.NewPromise] [(go_a, @Sending toy_env)] [].

Definition meanwhile : list (@Action toy_env) :=
  [@ActSend toy_env toy_client "GET" "/fail" None; @ActGo toy_env 1; @ActGo toy_env 1].

Definition other_refused : @AsyncState toy_env :=
  @mkAsyncState toy_env [Async.NewPromise; rejected_b]
    [(go_a, @Sending toy_env); (go_fail, @Returned toy_env)] ["/fail"%string].

Example SendAsync_run :
  async_run (meanwhile ++ [@ActGo toy_env 0; @ActGo toy_env 0]) sent_a
  = Some (@mkAsyncState toy_env [resolved_a; rejected_b]
            [(go_a, @Returned toy_env); (go_fail, @Returned toy_env)]
            ["/fail"; "/a"]%string).
Proof. vm_compute. reflexivity. Qed.


Lemma Request_fails_before_sending_witness :
  Client.prepareBody (Some upload_options) []
  = Some ((None, ""%string, Some "unsupported"%string), [])
  ∧ Client.Request toy_client "POST" "/upload" (Some upload_options) []
    = Some ((None, Some "unsupported"%string), []).
Proof.
  split; [vm_compute; reflexivity|].
  apply (Client.Request_fails_before_sending toy_client "POST" "/upload"
           upload_options [] None ""%string (Some "unsupported"%string)).
  vm_compute. reflexivity.
Defined.

Lemma Request_Body_first_witness :
  Client.Body reader_options = Some "payload"%string
  ∧ Client.Request toy_client "POST" "/upload"
      (Some (@Client.mkRequestOptions toy_env ∅ ∅ {["a" := "b"]}%string
               (Some "json"%string) (Some "payload"%string) 0%Z None [] false
               (Some {| Client.Fields := ∅; Client.Files := ∅ |}))) []
    = Client.Request toy_client "POST" "/upload" (Some reader_options) [].
Proof.
  split; [reflexivity|].
  apply (Client.Request_Body_first toy_client "POST" "/upload" reader_options
           "payload"%string (Some "json"%string) {["a" := "b"]}%string
           (Some {| Client.Fields := ∅; Client.Files := ∅ |}) []).
  reflexivity.
Defined.

Lemma buildURL_one_slash_witness :
  Client.baseURL slashed_client ≠ EmptyString
  ∧ ∃ base rest n m,
      Client.baseURL slashed_client = (base +:+ Client.slashes n)%string
      ∧ "//x/y"%string = (Client.slashes m +:+ rest)%string
      ∧ Client.last_char base ≠ Some "/"%char
      ∧ Client.first_char rest ≠ Some "/"%char
      ∧ Client.buildURL slashed_client "//x/y" = (base +:+ "/" +:+ rest)%string.
Proof.
  split; [discriminate|].
  apply (Client.buildURL_one_slash slashed_client "//x/y"). discriminate.
Defined.

Lemma SendConcurrentWithLimit_no_room_witness :
  (0 ≤ 0)%Z ∧ three_requests ≠ []
  ∧ SendConcurrentWithLimit toy_client three_requests 0 [0; 1; 2] [] = None.
Proof.
  split; [lia|]. split; [discriminate|].
  apply (SendConcurrentWithLimit_no_room toy_client three_requests 0 [0; 1; 2] []);
    [lia|discriminate].
Defined.

Lemma fan_out_schedule_independent_witness :
  SendConcurrent toy_client three_requests [2; 1; 0; 0; 2; 1] []
  = Some ([answered 0 "/a"; refused 1; answered 2 "/c"], ["/c"; "/fail"; "/a"]%string)
  ∧ SendConcurrentWithLimit toy_client three_requests 2
      [1; 0; 1; 1; 1; 2; 2; 0; 0; 2; 0; 2] []
    = Some ([answered 0 "/a"; refused 1; answered 2 "/c"], ["/fail"; "/c"; "/a"]%string)
  ∧ [answered 0 "/a"; refused 1; answered 2 "/c"]
    = imap (fun i req => slot i (answer toy_client [] req)) three_requests
  ∧ [answered 0 "/a"; refused 1; answered 2 "/c"]
    = [answered 0 "/a"; refused 1; answered 2 "/c"].
Proof.
  split; [vm_compute; reflexivity|]. split; [vm_compute; reflexivity|].
  apply (fan_out_schedule_independent toy_client three_requests [] 2
           [2; 1; 0; 0; 2; 1] [1; 0; 1; 1; 1; 2; 2; 0; 0; 2; 0; 2]
           [answered 0 "/a"; refused 1; answered 2 "/c"]
           [answered 0 "/a"; refused 1; answered 2 "/c"]
           ["/c"; "/fail"; "/a"]%string ["/fail"; "/c"; "/a"]%string).
  - intros req w2 Hreq. apply list_elem_of_lookup in Hreq as [i Hi].
    destruct i as [|[|[|i]]]; cbn in Hi; simplify_eq; reflexivity.
  - vm_compute. reflexivity.
  - vm_compute. reflexivity.
Defined.

Lemma SendAsync_settles_with_Request_witness :
  wf no_promises
  ∧ SendAsync toy_client "GET" "/a" None no_promises = (0, sent_a)
  ∧ Forall (respects 0 0) meanwhile
  ∧ async_run meanwhile sent_a = Some other_refused
  ∧ wait_at 0 sent_a = None
  ∧ net sent_a = []
  ∧ wait_at 0 other_refused = None
  ∧ ∃ r s3,
      Client.Request toy_client "GET" "/a" None ["/fail"%string] = Some (r, net s3)
      ∧ async_step (@ActGo toy_env 0) other_refused = Some s3
      ∧ ∀ acts' s4,
          Forall (respects 0 0) acts' →
          async_run acts' s3 = Some s4 →
          wait_at 0 s4 = None
          ∧ ∃ s5,
              async_step (@ActGo toy_env 0) s4 = Some s5
              ∧ wait_at 0 s5 = Some r
              ∧ net s5 = net s4
              ∧ async_step (@ActGo toy_env 0) s5 = None.
Proof.
  assert (Hwf : wf no_promises) by (intros k g ph Hk; discriminate Hk).
  assert (Hmeanwhile : Forall (respects 0 0) meanwhile)
    by (repeat constructor; cbn; lia).
  split; [exact Hwf|]. split; [reflexivity|]. split; [exact Hmeanwhile|].
  split; [reflexivity|].
  exact (SendAsync_settles_with_Request toy_client "GET" "/a" None no_promises sent_a
           other_refused 0 meanwhile Hwf eq_refl Hmeanwhile eq_refl).
Defined.

Lemma WaitAll_results_witness :
  Forall Async.guarded
    [Async.NewPromise; @Async.NewPromise (@Client.Response toy_env) string]
  ∧ @WaitAll toy_env [1; 0]
      settle_and_wait
      [Async.NewPromise; Async.NewPromise]
    = Some ([refused 0; answered 1 "/a"], [resolved_a; rejected_b])
  ∧ length [refused 0; answered 1 "/a"] = length [1; 0]
  ∧ ∀ i q, [1; 0] !! i = Some q →
      ∃ resp err,
        settled_to q [resolved_a; rejected_b] = Some (resp, err)
        ∧ [refused 0; answered 1 "/a"] !! i
          = Some (@mkConcurrentResponse toy_env i resp err).
Proof.
  assert (Hguarded : Forall Async.guarded
            [Async.NewPromise; @Async.NewPromise (@Client.Response toy_env) string])
    by (repeat constructor).
  split; [exact Hguarded|]. split; [vm_compute; reflexivity|].
  apply (@WaitAll_results toy_env [1; 0]
           settle_and_wait
           [Async.NewPromise; Async.NewPromise] [resolved_a; rejected_b]
           [refused 0; answered 1 "/a"] Hguarded).
  vm_compute. reflexivity.
Defined.

Lemma WaitAll_returns_witness :
  Forall Async.guarded
    [Async.NewPromise; @Async.NewPromise (@Client.Response toy_env) string]
  ∧ wait_run [1; 0] settled_first
      (@wait_started toy_env [1; 0] [Async.NewPromise; Async.NewPromise])
    = Some half_waited
  ∧ (∀ i q, [1; 0] !! i = Some q → wphases half_waited !! i ≠ Some Finished →
            is_Some (settled_to q (wheap half_waited))
            ↔ is_Some (wait_step [1; 0] (@Waiter toy_env i) half_waited))
  ∧ (∀ q r acts' s',
       settled_to q (wheap half_waited) = Some r →
       wait_run [1; 0] acts' half_waited = Some s' →
       settled_to q (wheap s') = Some r)
  ∧ (∃ rest res,
       @WaitAll toy_env [1; 0] (settled_first ++ rest)
         [Async.NewPromise; Async.NewPromise]
       = Some (res, [resolved_a; rejected_b]))
  ∧ (forallb is_finished (wphases half_waited) = true
     ↔ waiter_steps settled_first = 2 * length [1; 0]).
Proof.
  assert (Hguarded : Forall Async.guarded
            [Async.NewPromise; @Async.NewPromise (@Client.Response toy_env) string])
    by (repeat constructor).
  destruct (@WaitAll_returns toy_env [1; 0] settled_first
              [Async.NewPromise; Async.NewPromise] half_waited Hguarded eq_refl)
    as (Hmove & Hstable & Hreturns & Hcount).
  split; [exact Hguarded|]. split; [reflexivity|]. split; [exact Hmove|].
  split; [exact Hstable|]. split; [|exact Hcount].
  apply Hreturns. repeat constructor; vm_compute; eauto.
Defined.

(** The same network behind a parser that refuses the URL [":"]. *)
Definition picky_env : Client.Env :=
  {| Client.Reader := string;
     Client.Cookie := unit;
     Client.JSONValue := string;
     Client.URL := string;
     Client.HTTPClient := unit;
     Client.HTTPRequest := string;
     Client.HTTPResponse := string;
     Client.Err := string;
     Client.World := list string;
     Client.url_Parse := fun u => if decide (u = ":"%string) then None else Some u;
     Client.url_with_query := fun u _ => (u +:+ "?query")%string;
     Client.url_Values_Encode := fun _ => ""%string;
     Client.json_Marshal := fun _ => inl [];
     Client.bytes_NewBuffer := fun _ => ""%string;
     Client.strings_NewReader := fun r => r;
     Client.multipart_write := fun _ => inr "unsupported"%string;
     Client.http_NewRequest := fun _ u _ => inl u;
     Client.Header_Set := fun _ _ req => req;
     Client.SetBasicAuth := fun _ _ req => req;
     Client.AddCookie := fun _ req => req;
     Client.httpClient_Do := fun _ req w => (inl req, w ++ [req]);
     Client.io_ReadAll_Close := fun _ w => (inl [], w) |}.

Definition picky_client : @Client.Client picky_env :=
  @Client.mkClient picky_env tt ""%string ∅ 0%Z None.

Definition query_options : @Client.RequestOptions picky_env :=
  @Client.mkRequestOptions picky_env ∅ {["page" := "2"]}%string ∅ None None 0%Z
    None [] false None.

Definition auth_options : @Client.RequestOptions toy_env :=
  @Client.mkRequestOptions toy_env ∅ ∅ ∅ None None 0%Z
    (Some {| Client.Username := "u"; Client.Password := "p" |}) [] false None.

Lemma Request_unparsable_URL_drops_query_witness :
  Client.Request picky_client "GET" "/a" (Some query_options) []
  = Some ((Some (@Client.mkResponse picky_env "/a?query" []), None), ["/a?query"%string])
  ∧ Client.Request picky_client "GET" ":" (Some query_options) []
    = Client.Request picky_client "GET" ":"
        (Some (@Client.mkRequestOptions picky_env ∅ ∅ ∅ None None 0%Z None [] false
                 None)) [].
Proof.
  split; [vm_compute; reflexivity|].
  apply (Client.Request_unparsable_URL_drops_query picky_client "GET" ":"
           query_options []).
  vm_compute. reflexivity.
Defined.

Lemma Request_options_Auth_wins_witness :
  Client.Request
    (@Client.mkClient toy_env tt ""%string ∅ 0%Z
       (Some {| Client.Username := "admin"; Client.Password := "secret" |}))
    "GET" "/a" (Some auth_options) []
  = Client.Request toy_client "GET" "/a" (Some auth_options) [].
Proof.
  apply (Client.Request_options_Auth_wins toy_client
           (Some {| Client.Username := "admin"; Client.Password := "secret" |})
           "GET" "/a" auth_options {| Client.Username := "u"; Client.Password := "p" |} []).
  reflexivity.
Defined.


End AsyncClient.
